(** * The completion engine of the SOQL query editor panel

    A shallow embedding of [src/modules/cmp/queryEditorPanel/queryEditorPanel.js]
    (class [QueryEditorPanel]) and a verification of its completion logic:
    the separator search, the candidate filter, the selection tracker, the
    splice insertion and the keystroke state machine.

    Conventions of the embedding.
    - A JavaScript string is the list of its UTF-16 code units.
    - Offsets into strings ([selectionStart], [selectionEnd], the boundary)
      are natural numbers; the result of [Array.prototype.findIndex] is an
      integer, since it is [-1] when nothing is found.
    - [undefined] / [null] results are [None].
    - A method that mutates [this] is a function from the component state to
      an [outcome]: the state it returns with, or the state at the point
      where a [TypeError] / [SyntaxError] is thrown. *)

From Stdlib Require Import String Ascii.
From Stdlib Require Import List Bool Arith NArith ZArith Lia.
Import ListNotations.

Set Implicit Arguments.

(* ================================================================== *)
(** ** Strings *)

Definition char := N.
Definition jsstring := list char.

(** The code units of an ASCII literal. *)
Fixpoint lit (s : string) : jsstring :=
  match s with
  | EmptyString => []
  | String a rest => N_of_ascii a :: lit rest
  end.

(** Strict equality [===] of two strings. *)
Fixpoint jsstring_eqb (a b : jsstring) : bool :=
  match a, b with
  | [], [] => true
  | x :: a', y :: b' => N.eqb x y && jsstring_eqb a' b'
  | _, _ => false
  end.

(** [String.prototype.substring(start, end)]: both arguments are clamped to
    the length and swapped when [start > end]. *)
Definition substring (s : jsstring) (start end_ : nat) : jsstring :=
  let len := length s in
  let finalStart := Nat.min start len in
  let finalEnd := Nat.min end_ len in
  let from := Nat.min finalStart finalEnd in
  let to := Nat.max finalStart finalEnd in
  firstn (to - from) (skipn from s).

(** [String.prototype.substring(start)]: [end] is the length. *)
Definition substringFrom (s : jsstring) (start : nat) : jsstring :=
  substring s start (length s).

(* ================================================================== *)
(** ** Regular expressions

    The fragment of ECMAScript patterns that the panel uses: a sequence of
    single-character atoms, greedy stars over a single-character atom, and
    the end-of-input assertion.  Matching is the backtracking search of the
    language definition; [canon] is the engine's [Canonicalize], the identity
    unless the [i] flag is set. *)

Inductive atom : Type :=
| Lit (c : char)
| Class (negated : bool) (members : list char).

Inductive term : Type :=
| One (a : atom)
| Star (a : atom)
| EndOfInput.

Definition atomMatches (canon : char -> char) (a : atom) (c : char) : bool :=
  match a with
  | Lit p => N.eqb (canon p) (canon c)
  | Class negated members =>
      xorb negated (existsb (fun m => N.eqb (canon m) (canon c)) members)
  end.

(** Does the pattern match a prefix of [s]?  A star first tries to consume
    one more character and falls back to the rest of the pattern. *)
Fixpoint matchHere (canon : char -> char) (pat : list term) (s : jsstring)
  {struct pat} : bool :=
  match pat with
  | [] => true
  | One a :: pat' =>
      match s with
      | c :: s' => atomMatches canon a c && matchHere canon pat' s'
      | [] => false
      end
  | Star a :: pat' =>
      (fix star (s : jsstring) : bool :=
         match s with
         | c :: s' =>
             (atomMatches canon a c && star s') || matchHere canon pat' s
         | [] => matchHere canon pat' []
         end) s
  | EndOfInput :: pat' =>
      match s with
      | [] => matchHere canon pat' []
      | _ :: _ => false
      end
  end.

(** [RegExp.prototype.exec] with [lastIndex = 0]: the index of the leftmost
    position at which the pattern matches, or [None] for [null]. *)
Fixpoint execFrom (canon : char -> char) (pat : list term) (index : nat)
  (s : jsstring) : option nat :=
  if matchHere canon pat s then Some index
  else match s with
       | [] => None
       | _ :: s' => execFrom canon pat (S index) s'
       end.

Record RegExp : Type := mkRegExp {
  pattern : list term;
  canonicalizeWith : char -> char
}.

Definition exec (r : RegExp) (s : jsstring) : option nat :=
  execFrom (canonicalizeWith r) (pattern r) 0 s.

Definition test (r : RegExp) (s : jsstring) : bool :=
  match exec r s with Some _ => true | None => false end.

Definition backslash : char := 92%N.

(** SyntaxCharacter :: one of [^ $ \ . * + ? ( ) [ ] { } |] *)
Definition syntaxCharacters : list char :=
  lit "^$\.*+?()[]{}|".

Definition isSyntaxCharacter (c : char) : bool :=
  existsb (N.eqb c) syntaxCharacters.

Definition isAsciiAlnum (c : char) : bool :=
  ((48 <=? c) && (c <=? 57) || (65 <=? c) && (c <=? 90)
   || (97 <=? c) && (c <=? 122))%N.

(** Parsing of a pattern source made of pattern characters and identity
    escapes.  A character that is not a syntax character stands for itself;
    a backslash followed by a character that is not an ASCII letter or digit
    stands for that character.  Every other source is outside this fragment
    ([None]); it is either a [SyntaxError] or a construct the panel never
    builds. *)
Fixpoint parsePattern (src : jsstring) : option (list term) :=
  match src with
  | [] => Some []
  | c :: rest =>
      if N.eqb c backslash then
        match rest with
        | e :: rest' =>
            if isAsciiAlnum e then None
            else option_map (cons (One (Lit e))) (parsePattern rest')
        | [] => None
        end
      else if isSyntaxCharacter c then None
      else option_map (cons (One (Lit c))) (parsePattern rest)
  end.

(** [new RegExp(source, flags)] where [flags] is [''] or ['i']. *)
Definition newRegExp (canonicalize : char -> char) (src : jsstring)
  (ignoreCase : bool) : option RegExp :=
  match parsePattern src with
  | Some pat =>
      Some (mkRegExp pat (if ignoreCase then canonicalize else fun c => c))
  | None => None
  end.

(** Modelled from the spec: [escapeRegExp] of [base/utils/regexp-utils] is
    not part of the sources at hand.  The spec says that it escapes the
    keyword so that it is treated as literal text, not as a pattern: every
    syntax character gets a backslash in front of it. *)
Definition escapeRegExp (str : jsstring) : jsstring :=
  flat_map (fun c => if isSyntaxCharacter c then [backslash; c] else [c]) str.

(* ================================================================== *)
(** ** The separator search *)

Definition separators : list char := lit ",. ".

Definition isSeparator (c : char) : bool := existsb (N.eqb c) separators.

(** The literal [/[,. ][^,. ]*$/g].  A regular expression literal is a fresh
    object at each evaluation, so [lastIndex] is 0 when [exec] runs. *)
Definition separatorPattern : RegExp :=
  mkRegExp [One (Class false separators); Star (Class true separators);
            EndOfInput]
           (fun c => c).

(** [_findSeparator(value)]: [result && result.index + 1]. *)
Definition _findSeparator (value : jsstring) : option nat :=
  match exec separatorPattern value with
  | Some index => Some (index + 1)
  | None => None
  end.

(* ================================================================== *)
(** ** Arrays *)

(** [Array.prototype.findIndex]; [-1] when no element satisfies [p]. *)
Fixpoint findIndexFrom (A : Type) (p : A -> bool) (index : Z) (l : list A)
  : Z :=
  match l with
  | [] => (-1)%Z
  | x :: l' => if p x then index else findIndexFrom p (index + 1) l'
  end.

Definition findIndex (A : Type) (p : A -> bool) (l : list A) : Z :=
  findIndexFrom p 0 l.

(** [Array.prototype.map] with a callback that takes the element and its
    index. *)
Fixpoint mapFrom (A B : Type) (f : A -> Z -> B) (index : Z) (l : list A)
  : list B :=
  match l with
  | [] => []
  | x :: l' => f x index :: mapFrom f (index + 1) l'
  end.

Definition mapIndexed (A B : Type) (f : A -> Z -> B) (l : list A) : list B :=
  mapFrom f 0 l.

(* ================================================================== *)
(** ** The text field *)

Record Textarea : Type := mkTextarea {
  value : jsstring;
  selectionStart : nat;
  selectionEnd : nat
}.

(** Assignment to [value]: when the text changes, the caret moves to the end
    of the text.  The text is kept as assigned.  A text field also turns
    the line breaks CR LF and CR of an assigned text into LF; this is left
    out.  The texts that the panel itself assigns are made of the text of
    the field, which holds no carriage return, and of the name of a field;
    about the text that the field shows after the store has assigned one,
    nothing is stated below. *)
Definition setValue (v : jsstring) (t : Textarea) : Textarea :=
  if jsstring_eqb (value t) v then t
  else mkTextarea v (length v) (length v).

(** [setSelectionRange(start, end)]: both ends are clamped to the length of
    the text, and [start] to [end]. *)
Definition setSelectionRange (start end_ : nat) (t : Textarea) : Textarea :=
  let len := length (value t) in
  let e := Nat.min end_ len in
  let s := Nat.min (Nat.min start len) e in
  mkTextarea (value t) s e.

Record KeyboardEvent : Type := mkKeyboardEvent {
  key : jsstring;
  altKey : bool;
  ctrlKey : bool;
  metaKey : bool;
  isComposing : bool;
  target : Textarea
}.

(** [case] labels of a [switch (key)] and [Array.prototype.includes]. *)
Definition keyIn (k : jsstring) (labels : list jsstring) : bool :=
  existsb (jsstring_eqb k) labels.

(* ================================================================== *)
(** ** The component *)

Section QueryEditorPanel.

(** What the class takes from the platform and from other modules:
    - [canonicalize]: the case folding of a code unit that a regular
      expression with the [i] flag applies to both sides of a comparison;
    - [stripNamespace] of [service/salesforce];
    - [Meta]: the properties of a field description other than [name] and
      [label], which the panel passes through;
    - [caretStyle]: the style string that [_setCompletionPosition] builds
      from [getCaretCoordinates(target, target.selectionStart)]. *)
Variable canonicalize : char -> char.
Variable stripNamespace : jsstring -> jsstring.
Variable Meta : Type.
Variable Style : Type.
Variable caretStyle : Textarea -> Style.

(** An entry of [_sobjectMeta.fields]. *)
Record Field : Type := mkField {
  name : jsstring;
  label : jsstring;
  meta : Meta
}.

(** An entry of [completionFields]: [{...field, itemLabel, isActive}]. *)
Record Candidate : Type := mkCandidate {
  field : Field;
  itemLabel : jsstring;
  isActive : bool
}.

(** Actions handed to [store.dispatch]. *)
Inductive Action : Type :=
| updateSoql (soql : option jsstring)
| executeQuery (query : jsstring) (isAllRows : bool)
| formatSoql.

(** The fields of the component, the text field of its template
    ([.soql-input], which is also the target of the keyboard events), the
    timeouts that are pending and the actions dispatched so far (latest
    first).  [isCompletionVisible] is only ever tested for truth, so
    [undefined] is [false].  [_selectionStart] has no value until
    [_openCompletion] assigns one; it starts at 0 here, a number that no
    method gets to see (lemma [boundary_unobserved]). *)
Record State : Type := mkState {
  isCompletionVisible : bool;
  completionStyle : option Style;
  completionFields : option (list Candidate);
  _sobjectMeta : option (list Field);
  _selectionStart : nat;
  _soql : option jsstring;
  _closeCompletionTimer : option nat;
  inputEl : Textarea;
  pendingTimers : list nat;
  timersCreated : nat;
  dispatched : list Action
}.

Definition initial : State :=
  mkState false None None None 0 None None (mkTextarea [] 0 0) [] 0 [].

Definition set_isCompletionVisible (b : bool) (st : State) : State :=
  mkState b (completionStyle st) (completionFields st) (_sobjectMeta st)
    (_selectionStart st) (_soql st) (_closeCompletionTimer st) (inputEl st)
    (pendingTimers st) (timersCreated st) (dispatched st).

Definition set_completionStyle (s : option Style) (st : State) : State :=
  mkState (isCompletionVisible st) s (completionFields st) (_sobjectMeta st)
    (_selectionStart st) (_soql st) (_closeCompletionTimer st) (inputEl st)
    (pendingTimers st) (timersCreated st) (dispatched st).

Definition set_completionFields (cf : option (list Candidate)) (st : State)
  : State :=
  mkState (isCompletionVisible st) (completionStyle st) cf (_sobjectMeta st)
    (_selectionStart st) (_soql st) (_closeCompletionTimer st) (inputEl st)
    (pendingTimers st) (timersCreated st) (dispatched st).

Definition set_sobjectMeta (m : option (list Field)) (st : State) : State :=
  mkState (isCompletionVisible st) (completionStyle st) (completionFields st)
    m (_selectionStart st) (_soql st) (_closeCompletionTimer st) (inputEl st)
    (pendingTimers st) (timersCreated st) (dispatched st).

Definition set_selectionStart (n : nat) (st : State) : State :=
  mkState (isCompletionVisible st) (completionStyle st) (completionFields st)
    (_sobjectMeta st) n (_soql st) (_closeCompletionTimer st) (inputEl st)
    (pendingTimers st) (timersCreated st) (dispatched st).

Definition set_inputEl (t : Textarea) (st : State) : State :=
  mkState (isCompletionVisible st) (completionStyle st) (completionFields st)
    (_sobjectMeta st) (_selectionStart st) (_soql st)
    (_closeCompletionTimer st) t (pendingTimers st) (timersCreated st)
    (dispatched st).

(** [store.dispatch(action)] *)
Definition dispatch (a : Action) (st : State) : State :=
  mkState (isCompletionVisible st) (completionStyle st) (completionFields st)
    (_sobjectMeta st) (_selectionStart st) (_soql st)
    (_closeCompletionTimer st) (inputEl st) (pendingTimers st)
    (timersCreated st) (a :: dispatched st).

(** [this._closeCompletionTimer = setTimeout(...)]: the handle is a fresh
    positive number. *)
Definition setTimeout (st : State) : State :=
  let id := S (timersCreated st) in
  mkState (isCompletionVisible st) (completionStyle st) (completionFields st)
    (_sobjectMeta st) (_selectionStart st) (_soql st) (Some id) (inputEl st)
    (id :: pendingTimers st) id (dispatched st).

(** [clearTimeout(id)], and a timeout that has fired. *)
Definition clearTimeout (id : nat) (st : State) : State :=
  mkState (isCompletionVisible st) (completionStyle st) (completionFields st)
    (_sobjectMeta st) (_selectionStart st) (_soql st)
    (_closeCompletionTimer st) (inputEl st)
    (filter (fun t => negb (Nat.eqb t id)) (pendingTimers st))
    (timersCreated st) (dispatched st).

(** [get soql()] *)
Definition soql (st : State) : option jsstring := _soql st.

(** [set soql(value)]: [this._soql = value; inputEl.value = value]. *)
Definition set_soql (v : jsstring) (st : State) : State :=
  mkState (isCompletionVisible st) (completionStyle st) (completionFields st)
    (_sobjectMeta st) (_selectionStart st) (Some v)
    (_closeCompletionTimer st) (setValue v (inputEl st)) (pendingTimers st)
    (timersCreated st) (dispatched st).

(** The result of a method that may throw. *)
Inductive outcome : Type :=
| Returned (st : State)
| Thrown (st : State).

Definition stateOf (o : outcome) : State :=
  match o with Returned st => st | Thrown st => st end.

Definition andThen (o : outcome) (k : State -> outcome) : outcome :=
  match o with
  | Returned st => k st
  | Thrown st => Thrown st
  end.

(** [a || b] on a number or [null]. *)
Definition orElse (a : option nat) (b : nat) : nat :=
  match a with
  | Some n => if Nat.eqb n 0 then b else n
  | None => b
  end.

Definition _canOpenCompletion (event : KeyboardEvent) : bool :=
  (ctrlKey event && jsstring_eqb (key event) (lit " "))
  || (Nat.eqb (length (key event)) 1
      && negb (keyIn (key event) [lit " "; lit ","; lit "."])
      && negb (altKey event)
      && negb (ctrlKey event)
      && negb (metaKey event)
      && negb (isComposing event))
  || (isComposing event && jsstring_eqb (key event) (lit "Enter")).

Definition _closeCompletion (st : State) : State :=
  set_isCompletionVisible false st.

Definition _setCompletionPosition (event : KeyboardEvent) (st : State)
  : State :=
  set_completionStyle (Some (caretStyle (target event))) st.

(** The text that the keyword pattern is tested against, the display label
    of a candidate, and the candidate built from a field at an index. *)
Definition searchText (f : Field) : jsstring :=
  name f ++ lit " " ++ label f.

Definition toCandidate (f : Field) (index : Z) : Candidate :=
  mkCandidate f (name f ++ lit " / " ++ label f) (Z.eqb index 0).

Definition _searchCompletionFields (event : KeyboardEvent) (st : State)
  : outcome :=
  let target := target event in
  let keyword :=
    substring (value target) (_selectionStart st) (selectionEnd target) in
  let escapedKeyword := escapeRegExp keyword in
  match newRegExp canonicalize escapedKeyword true with
  | None => Thrown st
  | Some keywordPattern =>
      match _sobjectMeta st with
      | None => Thrown st
      | Some fields =>
          let found :=
            mapIndexed toCandidate
              (filter (fun f => test keywordPattern (searchText f)) fields) in
          let st := set_completionFields (Some found) st in
          if (0 <? length found)%nat then
            Returned
              (set_isCompletionVisible true (_setCompletionPosition event st))
          else Returned (set_isCompletionVisible false st)
      end
  end.

Definition _openCompletion (event : KeyboardEvent) (st : State) : outcome :=
  let target := target event in
  let st :=
    set_selectionStart
      (orElse
         (_findSeparator (substring (value target) 0 (selectionEnd target)))
         (selectionEnd target))
      st in
  if _canOpenCompletion event then _searchCompletionFields event st
  else Returned st.

Definition _deleteKeyword (event : KeyboardEvent) (st : State) : outcome :=
  andThen (_searchCompletionFields event st) (fun st =>
    if Nat.eqb (_selectionStart st) (selectionStart (target event))
    then Returned (_closeCompletion st)
    else Returned st).

Definition _handleCompletion (event : KeyboardEvent) (st : State) : outcome :=
  let st :=
    if altKey event || ctrlKey event || metaKey event
    then _closeCompletion st else st in
  if keyIn (key event)
       [lit "."; lit ","; lit " "; lit "Escape"; lit "ArrowLeft";
        lit "ArrowRight"]
  then Returned (_closeCompletion st)
  else if keyIn (key event) [lit "Backspace"]
  then _deleteKeyword event st
  else if keyIn (key event) [lit "ArrowDown"; lit "ArrowUp"; lit "Enter"]
  then
    if isComposing event then _searchCompletionFields event st
    else Returned st
  else _searchCompletionFields event st.

(** [{...field, isActive: flag}] on a candidate. *)
Definition withActive (c : Candidate) (flag : bool) : Candidate :=
  mkCandidate (field c) (itemLabel c) flag.

Definition _getActiveFieldIndex (fields : list Candidate) : Z :=
  findIndex isActive fields.

(** [event.preventDefault()] only concerns the browser's own handling of the
    key; it leaves the component as it is. *)
Definition _selectBellowField (st : State) : outcome :=
  match completionFields st with
  | None => Thrown st
  | Some fields =>
      let activeIndex := _getActiveFieldIndex fields in
      if (activeIndex + 1 <? Z.of_nat (length fields))%Z then
        Returned
          (set_completionFields
             (Some
                (mapIndexed
                   (fun c index => withActive c (Z.eqb index (activeIndex + 1)))
                   fields))
             st)
      else Returned st
  end.

Definition _selectAboveField (st : State) : outcome :=
  match completionFields st with
  | None => Thrown st
  | Some fields =>
      let activeIndex := _getActiveFieldIndex fields in
      if (0 <? activeIndex)%Z then
        Returned
          (set_completionFields
             (Some
                (mapIndexed
                   (fun c index => withActive c (Z.eqb index (activeIndex - 1)))
                   fields))
             st)
      else Returned st
  end.

(** Both callers pass the [.soql-input] element as [textarea]: the text and
    the caret are read from the argument, and what the setter of [soql] and
    [setSelectionRange] write goes to [inputEl].  [focus()] does not touch
    the text or the selection. *)
Definition _insertField (textarea : Textarea)
  (selectedField : option Candidate) (st : State) : State :=
  match selectedField with
  | Some selected =>
      let soql_ := value textarea in
      let preSoql := substring soql_ 0 (_selectionStart st) in
      let postSoql := substringFrom soql_ (selectionStart textarea) in
      let strippedFieldName := stripNamespace (name (field selected)) in
      let st := set_soql (preSoql ++ strippedFieldName ++ postSoql) st in
      let insertedIndex := _selectionStart st + length strippedFieldName in
      let st :=
        set_inputEl (setSelectionRange insertedIndex insertedIndex (inputEl st))
          st in
      let st := dispatch (updateSoql (soql st)) st in
      _closeCompletion st
  | None => _closeCompletion st
  end.

Definition _insertFieldByKeyboard (event : KeyboardEvent) (st : State)
  : outcome :=
  match completionFields st with
  | None => Thrown st
  | Some fields =>
      Returned (_insertField (target event) (find isActive fields) st)
  end.

(** [insertField(event)], the click on an entry of the list;
    [selectedName] is [event.target.dataset.name]. *)
Definition insertField (selectedName : jsstring) (st : State) : outcome :=
  let st :=
    match _closeCompletionTimer st with
    | Some id => if Nat.eqb id 0 then st else clearTimeout id st
    | None => st
    end in
  match completionFields st with
  | None => Thrown st
  | Some fields =>
      Returned
        (_insertField (inputEl st)
           (find (fun c => jsstring_eqb (name (field c)) selectedName) fields)
           st)
  end.

Definition differs (a : option jsstring) (b : jsstring) : bool :=
  match a with
  | Some s => negb (jsstring_eqb s b)
  | None => true
  end.

Definition handleKeyupSoql (event : KeyboardEvent) (st : State) : outcome :=
  let st :=
    if differs (_soql st) (value (target event))
    then dispatch (updateSoql (Some (value (target event)))) st
    else st in
  match _sobjectMeta st with
  | None => Returned st
  | Some _ =>
      if negb (isCompletionVisible st) then _openCompletion event st
      else _handleCompletion event st
  end.

Definition handleKeydownSoql (event : KeyboardEvent) (st : State) : outcome :=
  if isCompletionVisible st then
    if isComposing event then Returned st
    else if keyIn (key event) [lit "ArrowDown"] then _selectBellowField st
    else if keyIn (key event) [lit "ArrowUp"] then _selectAboveField st
    else if keyIn (key event) [lit "Enter"]
    then _insertFieldByKeyboard event st
    else Returned st
  else
    if isComposing event && jsstring_eqb (key event) (lit "Enter")
    then _openCompletion event st
    else Returned st.

Definition handleBlurSoql (st : State) : State := setTimeout st.

(** The callback of the timeout set by [handleBlurSoql]; it runs only while
    its timeout is pending. *)
Definition closeCompletionTimeout (id : nat) (st : State) : State :=
  if existsb (Nat.eqb id) (pendingTimers st)
  then _closeCompletion (clearTimeout id st)
  else st.

(** [storeChange({ sobject, ui })].  [data] is [None] when [sobject], the
    query or the state of the queried object is missing, and otherwise the
    [data] of that state, whose [fields] may not be there yet. *)
Definition storeChange (data : option (option (list Field)))
  (newSoql : jsstring) (st : State) : State :=
  let st :=
    match data with
    | Some d => set_sobjectMeta d st
    | None => st
    end in
  if differs (soql st) newSoql then set_soql newSoql st else st.

Definition _runQuery (isAllRows : bool) (st : State) : State :=
  match value (inputEl st) with
  | [] => st
  | query => dispatch (executeQuery query isAllRows) st
  end.

Definition runQuery (st : State) : State := _runQuery false st.
Definition runQueryAll (st : State) : State := _runQuery true st.
Definition formatQuery (st : State) : State := dispatch formatSoql st.

(** *** The events of the panel

    A keyboard event comes with the text field as the browser has left it;
    an exception that escapes a handler leaves the component in the state
    reached when it was thrown. *)
Inductive Event : Type :=
| Keyup (event : KeyboardEvent)
| Keydown (event : KeyboardEvent)
| Blur
| TimeoutFired (id : nat)
| CandidateChosen (selectedName : jsstring)
| StoreChanged (data : option (option (list Field))) (newSoql : jsstring)
| RunQuery
| RunQueryAll
| FormatQuery.

Definition handle (ev : Event) (st : State) : outcome :=
  match ev with
  | Keyup event => handleKeyupSoql event (set_inputEl (target event) st)
  | Keydown event => handleKeydownSoql event (set_inputEl (target event) st)
  | Blur => Returned (handleBlurSoql st)
  | TimeoutFired id => Returned (closeCompletionTimeout id st)
  | CandidateChosen selectedName => insertField selectedName st
  | StoreChanged data newSoql => Returned (storeChange data newSoql st)
  | RunQuery => Returned (runQuery st)
  | RunQueryAll => Returned (runQueryAll st)
  | FormatQuery => Returned (formatQuery st)
  end.

Definition step (st : State) (ev : Event) : State := stateOf (handle ev st).

Definition run (st : State) (evs : list Event) : State := fold_left step evs st.

Inductive reachable : State -> Prop :=
| reachable_initial : reachable initial
| reachable_step st ev : reachable st -> reachable (step st ev).

(* ================================================================== *)
(** ** Specifications in the words of the design *)

(** [n] is the offset just after the last separator of [value]. *)
Definition afterLastSeparator (value : jsstring) (n : nat) : Prop :=
  exists before c after,
    value = before ++ c :: after
    /\ isSeparator c = true
    /\ forallb (fun x => negb (isSeparator x)) after = true
    /\ n = length before + 1.

Definition noSeparator (s : jsstring) : bool :=
  forallb (fun x => negb (isSeparator x)) s.

(** Two strings of the same length whose code units agree once case is
    folded, and the occurrence of a keyword in a text up to case. *)
Definition sameIgnoringCase (a b : jsstring) : Prop :=
  Forall2 (fun x y => canonicalize x = canonicalize y) a b.

Definition occursIgnoringCase (keyword text : jsstring) : Prop :=
  exists before mid after,
    text = before ++ mid ++ after /\ sameIgnoringCase keyword mid.

(** The pattern that asks for the code units of [keyword] one after the
    other. *)
Definition literal (keyword : jsstring) : list term :=
  map (fun c => One (Lit c)) keyword.

(** The keys of the first [case] group of [_handleCompletion]. *)
Definition closingKeys : list jsstring :=
  [lit "."; lit ","; lit " "; lit "Escape"; lit "ArrowLeft"; lit "ArrowRight"].

(** The number of candidates that are marked active. *)
Definition activeCount (fields : list Candidate) : nat :=
  length (filter isActive fields).

(** Two candidates that agree on everything but the [isActive] flag. *)
Definition sameButActive (c c' : Candidate) : Prop :=
  field c' = field c /\ itemLabel c' = itemLabel c.

(** Two components that differ at most in [_selectionStart]. *)
Definition sameButBoundary (st1 st2 : State) : Prop :=
  set_selectionStart 0 st1 = set_selectionStart 0 st2.

(** The completion is open only over a list of candidates that is not
    empty. *)
Definition openHasCandidates (st : State) : Prop :=
  isCompletionVisible st = true ->
  exists fields, completionFields st = Some fields /\ fields <> [].

(* ================================================================== *)
(** ** Strings and the separator search *)

Lemma firstn_min_length (A : Type) (n : nat) (l : list A) :
  firstn (Nat.min n (length l)) l = firstn n l.
Proof.
  destruct (Nat.le_gt_cases n (length l)) as [Hle | Hgt].
  - now rewrite Nat.min_l.
  - rewrite Nat.min_r by lia.
    now rewrite !firstn_all2 by lia.
Qed.

Lemma substring_from_zero (s : jsstring) (n : nat) :
  substring s 0 n = firstn n s.
Proof.
  unfold substring. cbn [Nat.min].
  rewrite Nat.max_0_l, Nat.sub_0_r. cbn [skipn].
  apply firstn_min_length.
Qed.

Lemma substringFrom_skipn (s : jsstring) (n : nat) :
  substringFrom s n = skipn n s.
Proof.
  unfold substringFrom, substring.
  rewrite (Nat.min_id (length s)).
  assert (Hmin : Nat.min (Nat.min n (length s)) (length s)
                 = Nat.min n (length s)) by lia.
  assert (Hmax : Nat.max (Nat.min n (length s)) (length s) = length s) by lia.
  rewrite Hmin, Hmax.
  destruct (Nat.le_gt_cases n (length s)) as [Hle | Hgt].
  - rewrite Nat.min_l by lia.
    apply firstn_all2. rewrite length_skipn. lia.
  - rewrite Nat.min_r by lia.
    rewrite !skipn_all2 by lia. now destruct (length s - length s).
Qed.

Lemma jsstring_eqb_eq (a b : jsstring) : jsstring_eqb a b = true <-> a = b.
Proof.
  revert b. induction a as [| x a IH]; intros [| y b]; cbn; try easy.
  rewrite andb_true_iff, N.eqb_eq, IH.
  split; [intros [-> ->]; reflexivity | intros [= -> ->]; auto].
Qed.

Lemma jsstring_eqb_refl (a : jsstring) : jsstring_eqb a a = true.
Proof. now apply jsstring_eqb_eq. Qed.

Lemma existsb_pointwise (A : Type) (f g : A -> bool) (l : list A) :
  (forall x, f x = g x) -> existsb f l = existsb g l.
Proof.
  intros Hfg. induction l as [| x l IH]; [reflexivity |].
  cbn. now rewrite Hfg, IH.
Qed.

Lemma separator_class_matches (c : char) :
  atomMatches (fun x => x) (Class false separators) c = isSeparator c.
Proof.
  unfold atomMatches, isSeparator. rewrite xorb_false_l.
  apply existsb_pointwise. intros m. apply N.eqb_sym.
Qed.

Lemma other_class_matches (c : char) :
  atomMatches (fun x => x) (Class true separators) c = negb (isSeparator c).
Proof.
  unfold atomMatches, isSeparator. rewrite xorb_true_l. f_equal.
  apply existsb_pointwise. intros m. apply N.eqb_sym.
Qed.

(** The pattern matches at the head of [s] exactly when [s] starts with a
    separator and holds no other one. *)
Lemma separator_matchHere (s : jsstring) :
  matchHere (fun x => x) (pattern separatorPattern) s
  = match s with
    | [] => false
    | c :: s' => isSeparator c && noSeparator s'
    end.
Proof.
  destruct s as [| c s']; [reflexivity |].
  cbn [separatorPattern pattern matchHere].
  rewrite separator_class_matches. f_equal.
  induction s' as [| d s' IH]; [reflexivity |].
  rewrite other_class_matches, IH. cbn [noSeparator forallb].
  now rewrite orb_false_r.
Qed.

Lemma noSeparator_app (a b : jsstring) :
  noSeparator (a ++ b) = noSeparator a && noSeparator b.
Proof. apply forallb_app. Qed.

Lemma separator_execFrom_some (s : jsstring) (index k : nat) :
  execFrom (fun x => x) (pattern separatorPattern) index s = Some k
  <-> exists before c after,
        s = before ++ c :: after /\ isSeparator c = true
        /\ noSeparator after = true /\ k = index + length before.
Proof.
  revert index. induction s as [| x s IH]; intros index.
  - cbn [execFrom]. rewrite separator_matchHere. split; [discriminate |].
    intros (before & c & after & Heq & _). now destruct before.
  - cbn [execFrom]. rewrite separator_matchHere.
    destruct (isSeparator x && noSeparator s) eqn:Hhead.
    + apply andb_true_iff in Hhead as [Hx Hs]. split.
      * intros [= <-]. exists [], x, s. cbn. repeat split; auto.
      * intros (before & c & after & Heq & Hc & Hafter & ->).
        destruct before as [| y before]; [f_equal; cbn; lia |].
        cbn in Heq. injection Heq as -> ->.
        rewrite noSeparator_app in Hs. cbn [noSeparator forallb] in Hs.
        rewrite Hc in Hs. cbn in Hs. now rewrite andb_false_r in Hs.
    + rewrite IH. split.
      * intros (before & c & after & -> & Hc & Hafter & ->).
        exists (x :: before), c, after. cbn. repeat split; auto; lia.
      * intros (before & c & after & Heq & Hc & Hafter & ->).
        destruct before as [| y before].
        -- cbn in Heq. injection Heq as Hx Hs. subst x s.
           now rewrite Hc, Hafter in Hhead.
        -- cbn in Heq. injection Heq as -> ->.
           exists before, c, after. cbn. repeat split; auto; lia.
Qed.

Lemma separator_execFrom_none (s : jsstring) (index : nat) :
  execFrom (fun x => x) (pattern separatorPattern) index s = None
  <-> noSeparator s = true.
Proof.
  revert index. induction s as [| x s IH]; intros index.
  - cbn [execFrom]. rewrite separator_matchHere. easy.
  - cbn [execFrom]. rewrite separator_matchHere.
    change (noSeparator (x :: s))
      with (negb (isSeparator x) && noSeparator s).
    specialize (IH (S index)).
    destruct (isSeparator x), (noSeparator s); cbn [andb negb];
      try easy; now rewrite IH.
Qed.

Lemma findSeparator_exec (value : jsstring) :
  _findSeparator value
  = option_map (fun index => index + 1)
      (execFrom (fun x => x) (pattern separatorPattern) 0 value).
Proof.
  unfold _findSeparator, exec.
  now destruct (execFrom _ _ 0 value).
Qed.

(** C3. [_findSeparator] returns the offset just after the last separator
    (space, comma or period) of its argument, that is, the start of the
    trailing token, and [null] exactly when the argument holds no separator;
    on ["SELECT Na"], the text before offset 9 of
    ["SELECT Na FROM Account"], it returns 7. *)
Theorem findSeparator_after_last_separator :
  (forall value n,
      _findSeparator value = Some n <-> afterLastSeparator value n)
  /\ (forall value,
         _findSeparator value = None
         <-> forallb (fun x => negb (isSeparator x)) value = true)
  /\ _findSeparator (lit "SELECT Na") = Some 7
  /\ substring (lit "SELECT Na FROM Account") 0 9 = lit "SELECT Na".
Proof.
  split; [| split; [| split; reflexivity]].
  - intros value n. rewrite findSeparator_exec.
    unfold afterLastSeparator. split.
    + destruct (execFrom _ _ 0 value) as [k |] eqn:Hexec; [| discriminate].
      cbn [option_map]. intros [= <-].
      apply separator_execFrom_some in Hexec
        as (before & c & after & Heq & Hc & Hafter & ->).
      exists before, c, after. auto.
    + intros (before & c & after & Heq & Hc & Hafter & ->).
      assert (Hexec :
                execFrom (fun x => x) (pattern separatorPattern) 0 value
                = Some (0 + length before)).
      { apply separator_execFrom_some. exists before, c, after. auto. }
      rewrite Hexec. reflexivity.
  - intros value. rewrite findSeparator_exec.
    fold (noSeparator value).
    rewrite <- (separator_execFrom_none value 0).
    destruct (execFrom _ _ 0 value); easy.
Qed.

(* ================================================================== *)
(** ** The candidate filter *)

Lemma syntax_character_not_alnum (c : char) :
  isSyntaxCharacter c = true -> isAsciiAlnum c = false.
Proof.
  unfold isSyntaxCharacter. rewrite existsb_exists.
  intros (x & Hin & Heq). apply N.eqb_eq in Heq. subst x.
  cbn in Hin.
  repeat (destruct Hin as [<- | Hin]; [reflexivity |]).
  contradiction.
Qed.

Lemma pattern_character_not_backslash (c : char) :
  isSyntaxCharacter c = false -> N.eqb c backslash = false.
Proof.
  intros Hc. destruct (N.eqb_spec c backslash) as [-> | Hne]; [| reflexivity].
  discriminate Hc.
Qed.

(** The escaped keyword always compiles, and to the pattern that asks for
    the code units of the keyword one after the other. *)
Lemma parsePattern_escapeRegExp (keyword : jsstring) :
  parsePattern (escapeRegExp keyword) = Some (literal keyword).
Proof.
  induction keyword as [| c keyword IH]; [reflexivity |].
  cbn [escapeRegExp flat_map]. fold (escapeRegExp keyword).
  destruct (isSyntaxCharacter c) eqn:Hc.
  - cbn [app parsePattern]. rewrite N.eqb_refl.
    rewrite (syntax_character_not_alnum c Hc), IH. reflexivity.
  - cbn [app parsePattern].
    rewrite (pattern_character_not_backslash c Hc), Hc, IH. reflexivity.
Qed.

Lemma matchHere_literal (canon : char -> char) (keyword s : jsstring) :
  matchHere canon (literal keyword) s = true
  <-> exists mid after,
        s = mid ++ after
        /\ Forall2 (fun x y => canon x = canon y) keyword mid.
Proof.
  revert s. induction keyword as [| k keyword IH]; intros s.
  - cbn. split; [| reflexivity].
    intros _. exists [], s. split; [reflexivity | constructor].
  - cbn [literal map matchHere]. fold (literal keyword).
    destruct s as [| c s].
    + split; [discriminate |].
      intros (mid & after & Heq & Hsame). inversion Hsame; subst.
      discriminate.
    + cbn [atomMatches]. rewrite andb_true_iff, N.eqb_eq, IH. split.
      * intros (Hkc & mid & after & -> & Hsame).
        exists (c :: mid), after. split; [reflexivity |].
        now constructor.
      * intros (mid & after & Heq & Hsame).
        inversion Hsame as [| k' c' keyword' mid' Hkc Hrest]; subst.
        cbn in Heq. injection Heq as -> ->.
        split; [assumption |]. now exists mid', after.
Qed.

Lemma execFrom_found (canon : char -> char) (pat : list term)
  (index : nat) (s : jsstring) :
  (exists k, execFrom canon pat index s = Some k)
  <-> exists before rest,
        s = before ++ rest /\ matchHere canon pat rest = true.
Proof.
  revert index. induction s as [| x s IH]; intros index; cbn [execFrom].
  - destruct (matchHere canon pat []) eqn:Hm.
    + split; [intros _; now exists [], [] | intros _; now exists index].
    + split; [intros [k Hk]; discriminate |].
      intros (before & rest & Heq & Hrest).
      symmetry in Heq. apply app_eq_nil in Heq as [-> ->]. congruence.
  - destruct (matchHere canon pat (x :: s)) eqn:Hm.
    + split; [intros _; now exists [], (x :: s) | intros _; now exists index].
    + rewrite IH. split.
      * intros (before & rest & -> & Hrest). now exists (x :: before), rest.
      * intros (before & rest & Heq & Hrest).
        destruct before as [| y before].
        -- cbn in Heq. subst rest. congruence.
        -- cbn in Heq. injection Heq as -> ->. now exists before, rest.
Qed.

(** A compiled literal keyword with the [i] flag tests for an occurrence of
    the keyword up to case. *)
Lemma test_literal (keyword text : jsstring) :
  test (mkRegExp (literal keyword) canonicalize) text = true
  <-> occursIgnoringCase keyword text.
Proof.
  unfold test, exec, occursIgnoringCase, sameIgnoringCase.
  cbn [pattern canonicalizeWith].
  transitivity
    (exists k, execFrom canonicalize (literal keyword) 0 text = Some k).
  - destruct (execFrom canonicalize (literal keyword) 0 text) as [k |].
    + split; [intros _; now exists k | reflexivity].
    + split; [discriminate | intros [k Hk]; discriminate].
  - rewrite execFrom_found. split.
    + intros (before & rest & -> & Hrest).
      apply matchHere_literal in Hrest as (mid & after & -> & Hsame).
      now exists before, mid, after.
    + intros (before & mid & after & -> & Hsame).
      exists before, (mid ++ after). split; [reflexivity |].
      apply matchHere_literal. now exists mid, after.
Qed.

Lemma length_mapFrom (A B : Type) (f : A -> Z -> B) (index : Z)
  (l : list A) :
  length (mapFrom f index l) = length l.
Proof.
  revert index. induction l as [| x l IH]; intros index; cbn; auto.
Qed.

Lemma nth_error_mapFrom (A B : Type) (f : A -> Z -> B) (index : Z)
  (l : list A) (n : nat) :
  nth_error (mapFrom f index l) n
  = option_map (fun x => f x (index + Z.of_nat n)%Z) (nth_error l n).
Proof.
  revert index n. induction l as [| x l IH]; intros index [| n]; cbn [mapFrom nth_error option_map];
    try reflexivity.
  - now rewrite Z.add_0_r.
  - rewrite IH. destruct (nth_error l n); cbn [option_map]; [| reflexivity].
    do 2 f_equal. lia.
Qed.

Lemma field_toCandidate (index : Z) (l : list Field) :
  map field (mapFrom toCandidate index l) = l.
Proof.
  revert index. induction l as [| x l IH]; intros index; cbn; [reflexivity |].
  now rewrite IH.
Qed.

Lemma filter_all (A : Type) (p : A -> bool) (l : list A) :
  (forall x, p x = true) -> filter p l = l.
Proof.
  intros Hp. induction l as [| x l IH]; [reflexivity |].
  cbn. now rewrite Hp, IH.
Qed.

(** What [_searchCompletionFields] does to the component when the field
    descriptions are loaded. *)
Lemma searchCompletionFields_loaded (event : KeyboardEvent) (st : State)
  (fields : list Field) :
  _sobjectMeta st = Some fields ->
  let keyword :=
    substring (value (target event)) (_selectionStart st)
      (selectionEnd (target event)) in
  let found :=
    mapIndexed toCandidate
      (filter
         (fun f => test (mkRegExp (literal keyword) canonicalize)
                     (searchText f))
         fields) in
  _searchCompletionFields event st
  = Returned
      (if (0 <? length found)%nat
       then set_isCompletionVisible true
              (_setCompletionPosition event
                 (set_completionFields (Some found) st))
       else set_isCompletionVisible false
              (set_completionFields (Some found) st)).
Proof.
  intros Hmeta keyword found.
  unfold _searchCompletionFields, newRegExp.
  rewrite parsePattern_escapeRegExp. cbn [_sobjectMeta].
  rewrite Hmeta. fold keyword. fold found.
  now destruct (0 <? length found)%nat.
Qed.

(** C4. With the field descriptions loaded, [_searchCompletionFields]
    returns normally and leaves in [completionFields] exactly the
    descriptions in whose text ["<name> <label>"] the keyword, taken
    literally, occurs up to case; they are in the order of the catalog,
    each with the display label ["<name> / <label>"], the one at index 0
    active and no other.  With the empty keyword the whole catalog is kept. *)
Theorem searchCompletionFields_filters (event : KeyboardEvent) (st : State)
  (fields : list Field) :
  _sobjectMeta st = Some fields ->
  let keyword :=
    substring (value (target event)) (_selectionStart st)
      (selectionEnd (target event)) in
  exists st' found keep,
    _searchCompletionFields event st = Returned st'
    /\ completionFields st' = Some found
    /\ (forall f,
           keep f = true
           <-> occursIgnoringCase keyword (name f ++ lit " " ++ label f))
    /\ map field found = filter keep fields
    /\ (forall i c,
           nth_error found i = Some c ->
           isActive c = Nat.eqb i 0
           /\ itemLabel c = name (field c) ++ lit " / " ++ label (field c))
    /\ (keyword = [] -> map field found = fields).
Proof.
  intros Hmeta keyword.
  pose (keep := fun f =>
                  test (mkRegExp (literal keyword) canonicalize)
                    (searchText f)).
  pose (found := mapIndexed toCandidate (filter keep fields)).
  assert (Hkeep : forall f,
             keep f = true <-> occursIgnoringCase keyword (searchText f)).
  { intros f. apply test_literal. }
  assert (Hfields : map field found = filter keep fields).
  { apply field_toCandidate. }
  eexists. exists found, keep.
  split; [apply (searchCompletionFields_loaded event st Hmeta) |].
  fold keyword. fold keep. fold found.
  split; [now destruct (0 <? length found)%nat |].
  split; [exact Hkeep |]. split; [exact Hfields |]. split.
  - intros i c Hnth. unfold found, mapIndexed in Hnth.
    rewrite nth_error_mapFrom in Hnth.
    destruct (nth_error (filter keep fields) i) as [f |];
      [| discriminate].
    cbn in Hnth. injection Hnth as <-. cbn. split; [| reflexivity].
    now destruct i.
  - intros Hempty. rewrite Hfields. apply filter_all.
    intros f. apply Hkeep. rewrite Hempty.
    exists [], [], (searchText f). split; [reflexivity | constructor].
Qed.

(* ================================================================== *)
(** ** The selection tracker *)

(** Case analysis on the integer comparisons of a goal. *)
Ltac compare_indices :=
  repeat match goal with
         | |- context [(?a <? ?b)%Z] => destruct (Z.ltb_spec a b)
         | |- context [(?a <=? ?b)%Z] => destruct (Z.leb_spec a b)
         end;
  cbn [andb]; try reflexivity; try lia.

Lemma findIndexFrom_range (A : Type) (p : A -> bool) (index : Z)
  (l : list A) :
  findIndexFrom p index l = (-1)%Z
  \/ (index <= findIndexFrom p index l < index + Z.of_nat (length l))%Z.
Proof.
  revert index. induction l as [| x l IH]; intros index; cbn [findIndexFrom].
  - now left.
  - destruct (p x).
    + right. cbn [length]. lia.
    + destruct (IH (index + 1)%Z) as [-> | Hrange]; [now left |].
      right. cbn [length]. lia.
Qed.

Lemma activeIndex_range (fields : list Candidate) :
  (-1 <= _getActiveFieldIndex fields < Z.of_nat (length fields))%Z.
Proof.
  unfold _getActiveFieldIndex, findIndex.
  destruct (findIndexFrom_range isActive 0 fields) as [-> | Hrange]; lia.
Qed.

(** Marking the candidate at index [k], and no other, leaves one active
    candidate when [k] is an index of the list, and none otherwise. *)
Lemma activeCount_mark (k index : Z) (fields : list Candidate) :
  activeCount
    (mapFrom (fun c i => withActive c (Z.eqb i k)) index fields)
  = if ((index <=? k) && (k <? index + Z.of_nat (length fields)))%Z
    then 1 else 0.
Proof.
  unfold activeCount.
  revert index. induction fields as [| c fields IH]; intros index.
  - cbn [mapFrom filter length]. compare_indices.
  - cbn [mapFrom filter withActive isActive].
    destruct (Z.eqb_spec index k) as [-> | Hne].
    + cbn [length]. rewrite IH. compare_indices.
    + rewrite IH. cbn [length]. compare_indices.
Qed.

Lemma sameButActive_mark (flag : Z -> bool) (index : Z)
  (fields : list Candidate) :
  Forall2 sameButActive fields
    (mapFrom (fun c i => withActive c (flag i)) index fields).
Proof.
  revert index. induction fields as [| c fields IH]; intros index; cbn.
  - constructor.
  - constructor; [now split | apply IH].
Qed.

Lemma sameButActive_refl (fields : list Candidate) :
  Forall2 sameButActive fields fields.
Proof.
  induction fields as [| c fields IH]; constructor; [now split | exact IH].
Qed.

Lemma set_completionFields_same (st : State) (fields : list Candidate) :
  completionFields st = Some fields ->
  set_completionFields (Some fields) st = st.
Proof. destruct st. cbn. now intros ->. Qed.

(** C5. From a list of candidates with exactly one active candidate (such a
    list is not empty), [_selectBellowField] (Next) and [_selectAboveField]
    (Prev) return normally with a list that again has exactly one active
    candidate. *)
Theorem selection_keeps_one_active (st : State) (fields : list Candidate) :
  completionFields st = Some fields ->
  fields <> [] ->
  activeCount fields = 1 ->
  (exists st' fields',
      _selectBellowField st = Returned st'
      /\ completionFields st' = Some fields'
      /\ activeCount fields' = 1)
  /\ (exists st' fields',
         _selectAboveField st = Returned st'
         /\ completionFields st' = Some fields'
         /\ activeCount fields' = 1).
Proof.
  intros Hfields _ Hone.
  pose proof (activeIndex_range fields) as Hrange.
  split.
  - unfold _selectBellowField. rewrite Hfields.
    destruct (_getActiveFieldIndex fields + 1 <? Z.of_nat (length fields))%Z
      eqn:Hnext.
    + eexists. eexists. split; [reflexivity |]. split; [reflexivity |].
      unfold mapIndexed. rewrite activeCount_mark.
      apply Z.ltb_lt in Hnext. compare_indices.
    + now exists st, fields.
  - unfold _selectAboveField. rewrite Hfields.
    destruct (0 <? _getActiveFieldIndex fields)%Z eqn:Hprev.
    + eexists. eexists. split; [reflexivity |]. split; [reflexivity |].
      unfold mapIndexed. rewrite activeCount_mark.
      apply Z.ltb_lt in Hprev. compare_indices.
    + now exists st, fields.
Qed.


(** C10. [_selectBellowField] and [_selectAboveField] change nothing but
    [isActive] flags: the component is the old one with a new list in
    [completionFields], which has the length of the old list and, position
    by position, the same field (name, label and the properties passed
    through) and the same display label. *)
Theorem selection_changes_only_flags (st : State) (fields : list Candidate) :
  completionFields st = Some fields ->
  (exists fields',
      _selectBellowField st = Returned (set_completionFields (Some fields') st)
      /\ length fields' = length fields
      /\ Forall2 sameButActive fields fields')
  /\ (exists fields',
         _selectAboveField st
         = Returned (set_completionFields (Some fields') st)
         /\ length fields' = length fields
         /\ Forall2 sameButActive fields fields').
Proof.
  intros Hfields. split.
  - unfold _selectBellowField. rewrite Hfields.
    destruct (_ <? _)%Z.
    + eexists. split; [reflexivity |]. unfold mapIndexed. split.
      * apply length_mapFrom.
      * apply (sameButActive_mark
                 (fun i => Z.eqb i (_getActiveFieldIndex fields + 1))).
    + exists fields. rewrite (set_completionFields_same st Hfields).
      auto using sameButActive_refl.
  - unfold _selectAboveField. rewrite Hfields.
    destruct (_ <? _)%Z.
    + eexists. split; [reflexivity |]. unfold mapIndexed. split.
      * apply length_mapFrom.
      * apply (sameButActive_mark
                 (fun i => Z.eqb i (_getActiveFieldIndex fields - 1))).
    + exists fields. rewrite (set_completionFields_same st Hfields).
      auto using sameButActive_refl.
Qed.

(* ================================================================== *)
(** ** The splice insertion *)

Lemma value_setValue (v : jsstring) (t : Textarea) :
  value (setValue v t) = v.
Proof.
  unfold setValue. destruct (jsstring_eqb (value t) v) eqn:Heq;
    [now apply jsstring_eqb_eq | reflexivity].
Qed.

Lemma firstn_exact (A : Type) (l1 l2 : list A) :
  firstn (length l1) (l1 ++ l2) = l1.
Proof. induction l1 as [| x l1 IH]; cbn; [now destruct l2 | now rewrite IH]. Qed.

Lemma setSelectionRange_caret (index : nat) (t : Textarea) :
  value (setSelectionRange index index t) = value t
  /\ selectionStart (setSelectionRange index index t)
     = Nat.min index (length (value t))
  /\ selectionEnd (setSelectionRange index index t)
     = Nat.min index (length (value t)).
Proof.
  unfold setSelectionRange. cbn [value selectionStart selectionEnd].
  now rewrite Nat.min_id.
Qed.

(** The text field after an insertion. *)
Lemma insertField_inputEl (textarea : Textarea) (selected : Candidate)
  (st : State) :
  let strippedName := stripNamespace (name (field selected)) in
  let index := _selectionStart st + length strippedName in
  inputEl (_insertField textarea (Some selected) st)
  = setSelectionRange index index
      (setValue
         (firstn (_selectionStart st) (value textarea)
          ++ strippedName ++ skipn (selectionStart textarea) (value textarea))
         (inputEl st)).
Proof.
  cbn zeta. rewrite <- substring_from_zero, <- substringFrom_skipn.
  reflexivity.
Qed.

(** C1, as the code has it.  With a candidate, [_insertField] makes the
    text [T[0:b] + strippedName + T[s:]], where [T] is the text of the
    field, [b] the boundary [_selectionStart], [s] the caret
    [selectionStart], and [strippedName] the candidate's name through
    [stripNamespace]; it stores that text in [_soql], hands it to the store
    and closes the completion.  When the boundary lies within the text
    ([b <= length T]), the caret is put at [b + length strippedName], the
    text up to the caret is [T[0:b] + strippedName], and what follows the
    caret is [T[s:]]. *)
Theorem insertField_splices (textarea : Textarea) (selected : Candidate)
  (st : State) :
  let T := value textarea in
  let b := _selectionStart st in
  let s := selectionStart textarea in
  let strippedName := stripNamespace (name (field selected)) in
  let st' := _insertField textarea (Some selected) st in
  let newText := value (inputEl st') in
  newText = firstn b T ++ strippedName ++ skipn s T
  /\ _soql st' = Some newText
  /\ dispatched st' = updateSoql (Some newText) :: dispatched st
  /\ isCompletionVisible st' = false
  /\ (b <= length T ->
      selectionStart (inputEl st') = b + length strippedName
      /\ selectionEnd (inputEl st') = b + length strippedName
      /\ firstn (b + length strippedName) newText = firstn b T ++ strippedName
      /\ skipn (b + length strippedName) newText = skipn s T).
Proof.
  intros T b s strippedName st' newText.
  pose proof (insertField_inputEl textarea selected st) as Hinput.
  cbn zeta in Hinput. fold T b s strippedName st' in Hinput.
  destruct (setSelectionRange_caret (b + length strippedName)
              (setValue (firstn b T ++ strippedName ++ skipn s T)
                 (inputEl st)))
    as (Hvalue & Hstart & Hend).
  rewrite <- Hinput, value_setValue in Hvalue, Hstart, Hend.
  fold newText in Hvalue.
  split; [exact Hvalue |].
  split.
  { rewrite Hvalue. unfold st', _insertField. cbn [_soql _closeCompletion
      set_isCompletionVisible dispatch set_inputEl set_soql].
    now rewrite substring_from_zero, substringFrom_skipn. }
  split.
  { rewrite Hvalue. unfold st', _insertField. cbn [_soql dispatched soql
      _closeCompletion set_isCompletionVisible dispatch set_inputEl set_soql].
    now rewrite substring_from_zero, substringFrom_skipn. }
  split; [reflexivity |].
  intros Hb.
  assert (Hprefix : length (firstn b T ++ strippedName)
                    = b + length strippedName).
  { rewrite length_app, length_firstn. lia. }
  assert (Hcaret : Nat.min (b + length strippedName)
                     (length (firstn b T ++ strippedName ++ skipn s T))
                   = b + length strippedName).
  { rewrite app_assoc, length_app. lia. }
  rewrite Hcaret in Hstart, Hend.
  split; [exact Hstart |]. split; [exact Hend |].
  rewrite Hvalue, app_assoc, <- Hprefix.
  split; [apply firstn_exact |].
  now rewrite skipn_app, Nat.sub_diag, skipn_all.
Qed.

(** C8. Without a candidate, [_insertField] only closes the completion: the
    text, the caret, [_soql] and what was handed to the store are as
    before.  So it is for the Enter key and for a click when the list has no
    entry to insert: both return normally. *)
Theorem insertField_without_candidate_closes (textarea : Textarea)
  (st : State) :
  let st' := _insertField textarea None st in
  (isCompletionVisible st' = false
   /\ inputEl st' = inputEl st
   /\ _soql st' = _soql st
   /\ dispatched st' = dispatched st
   /\ completionFields st' = completionFields st
   /\ _selectionStart st' = _selectionStart st)
  /\ (forall event fields,
         completionFields st = Some fields ->
         find isActive fields = None ->
         _insertFieldByKeyboard event st = Returned (_closeCompletion st))
  /\ (forall selectedName,
         completionFields st = Some [] ->
         exists st'',
           insertField selectedName st = Returned st''
           /\ isCompletionVisible st'' = false
           /\ inputEl st'' = inputEl st
           /\ _soql st'' = _soql st).
Proof.
  cbn zeta. split; [now repeat split |]. split.
  - intros event fields Hfields Hnone.
    unfold _insertFieldByKeyboard. now rewrite Hfields, Hnone.
  - intros selectedName Hfields. unfold insertField.
    destruct (_closeCompletionTimer st) as [id |];
      [destruct (Nat.eqb id 0) |]; cbn [clearTimeout completionFields];
      rewrite Hfields; eexists; (split; [reflexivity |]); now repeat split.
Qed.

(* ================================================================== *)
(** ** The keystrokes while the completion is open *)

(** The keys that always close: period, comma, space, Escape and the
    horizontal arrows, with or without a modifier. *)
Lemma handleCompletion_closing_key (event : KeyboardEvent) (st : State) :
  In (key event) closingKeys ->
  exists st',
    _handleCompletion event st = Returned st'
    /\ isCompletionVisible st' = false.
Proof.
  intros Hkey. unfold _handleCompletion.
  assert (Hin : keyIn (key event) closingKeys = true).
  { unfold keyIn. apply existsb_exists.
    exists (key event). split; [exact Hkey | apply jsstring_eqb_refl]. }
  unfold closingKeys in Hin. rewrite Hin.
  eexists. split; reflexivity.
Qed.

(** A modifier closes for good only when the key is a vertical arrow or
    Enter outside a composition; the other keys go on to the search. *)
Lemma handleCompletion_modifier_then_navigation (event : KeyboardEvent)
  (st : State) :
  altKey event || ctrlKey event || metaKey event = true ->
  In (key event) [lit "ArrowDown"; lit "ArrowUp"; lit "Enter"] ->
  isComposing event = false ->
  _handleCompletion event st = Returned (_closeCompletion st).
Proof.
  intros Hmod Hkey Hcomposing. unfold _handleCompletion.
  rewrite Hmod, Hcomposing.
  cbn in Hkey. destruct Hkey as [<- | [<- | [<- | []]]]; reflexivity.
Qed.

Lemma searchCompletionFields_found (event : KeyboardEvent) (st : State)
  (fields : list Field) :
  _sobjectMeta st = Some fields ->
  exists found,
    completionFields (stateOf (_searchCompletionFields event st)) = Some found
    /\ _searchCompletionFields event st
       = Returned (stateOf (_searchCompletionFields event st))
    /\ isCompletionVisible (stateOf (_searchCompletionFields event st))
       = (0 <? length found)%nat
    /\ _selectionStart (stateOf (_searchCompletionFields event st))
       = _selectionStart st.
Proof.
  intros Hmeta.
  rewrite (searchCompletionFields_loaded event st Hmeta).
  cbn zeta. eexists.
  destruct (0 <? length _)%nat eqn:Hfound; cbn; rewrite ?Hfound; auto.
Qed.

(** The candidates that the search computes depend on the component only
    through the field descriptions and the boundary. *)
Lemma searchCompletionFields_same_candidates (event : KeyboardEvent)
  (st1 st2 : State) :
  _sobjectMeta st1 = _sobjectMeta st2 ->
  _selectionStart st1 = _selectionStart st2 ->
  _sobjectMeta st1 <> None ->
  completionFields (stateOf (_searchCompletionFields event st1))
  = completionFields (stateOf (_searchCompletionFields event st2)).
Proof.
  intros Hmeta Hstart Hloaded.
  destruct (_sobjectMeta st1) as [fields |] eqn:H1; [| congruence].
  symmetry in Hmeta.
  rewrite (searchCompletionFields_loaded event st1 H1).
  rewrite (searchCompletionFields_loaded event st2 Hmeta).
  cbn zeta. rewrite Hstart.
  now destruct (0 <? length _)%nat.
Qed.


(* ================================================================== *)
(** ** The invariant of the open completion *)

Lemma openHasCandidates_closed (st : State) :
  isCompletionVisible st = false -> openHasCandidates st.
Proof. unfold openHasCandidates. congruence. Qed.

(** A state that shows the same flag and the same list inherits the
    invariant. *)
Lemma openHasCandidates_frame (st st' : State) :
  isCompletionVisible st' = isCompletionVisible st ->
  completionFields st' = completionFields st ->
  openHasCandidates st -> openHasCandidates st'.
Proof. unfold openHasCandidates. intros -> ->. auto. Qed.

Lemma openHasCandidates_search (event : KeyboardEvent) (st : State) :
  openHasCandidates st ->
  openHasCandidates (stateOf (_searchCompletionFields event st)).
Proof.
  intros Hst. unfold _searchCompletionFields.
  destruct (newRegExp _ _ _) as [keywordPattern |]; [| exact Hst].
  destruct (_sobjectMeta st) as [fields |]; [| exact Hst].
  cbv zeta.
  destruct (0 <? length _)%nat eqn:Hfound.
  - intros _. cbn. eexists. split; [reflexivity |].
    intros Hnil. rewrite Hnil in Hfound. discriminate.
  - now apply openHasCandidates_closed.
Qed.

Lemma openHasCandidates_open (event : KeyboardEvent) (st : State) :
  openHasCandidates st ->
  openHasCandidates (stateOf (_openCompletion event st)).
Proof.
  intros Hst. unfold _openCompletion.
  destruct (_canOpenCompletion event).
  - apply openHasCandidates_search.
    now apply (openHasCandidates_frame (st := st)).
  - now apply (openHasCandidates_frame (st := st)).
Qed.

Lemma openHasCandidates_handle (event : KeyboardEvent) (st : State) :
  openHasCandidates st ->
  openHasCandidates (stateOf (_handleCompletion event st)).
Proof.
  intros Hst. unfold _handleCompletion.
  set (st1 := if altKey event || ctrlKey event || metaKey event
              then _closeCompletion st else st).
  assert (H1 : openHasCandidates st1).
  { unfold st1. destruct (_ || _); [now apply openHasCandidates_closed | exact Hst]. }
  destruct (keyIn (key event) _); [now apply openHasCandidates_closed |].
  destruct (keyIn (key event) _).
  { unfold _deleteKeyword.
    pose proof (openHasCandidates_search event H1) as Hsearch.
    destruct (_searchCompletionFields event st1) as [st2 | st2];
      cbn [andThen stateOf] in *; [| exact Hsearch].
    destruct (Nat.eqb _ _); [now apply openHasCandidates_closed | exact Hsearch]. }
  destruct (keyIn (key event) _).
  { destruct (isComposing event);
      [now apply openHasCandidates_search | exact H1]. }
  now apply openHasCandidates_search.
Qed.

Lemma openHasCandidates_relabel (f : Candidate -> Z -> Candidate)
  (st : State) (fields : list Candidate) :
  completionFields st = Some fields ->
  openHasCandidates st ->
  openHasCandidates (set_completionFields (Some (mapIndexed f fields)) st).
Proof.
  intros Hfields Hst Hopen. cbn in Hopen.
  destruct (Hst Hopen) as (l & Hl & Hne).
  assert (l = fields) by congruence. subst l.
  exists (mapIndexed f fields). split; [reflexivity |].
  intros Hnil. apply (f_equal (@length Candidate)) in Hnil.
  unfold mapIndexed in Hnil. rewrite length_mapFrom in Hnil.
  destruct fields; [congruence | discriminate].
Qed.

Lemma openHasCandidates_select (st : State) :
  openHasCandidates st ->
  openHasCandidates (stateOf (_selectBellowField st))
  /\ openHasCandidates (stateOf (_selectAboveField st)).
Proof.
  intros Hst. unfold _selectBellowField, _selectAboveField.
  destruct (completionFields st) as [fields |] eqn:Hfields; [| now split].
  split; destruct (_ <? _)%Z; cbn [stateOf]; try exact Hst;
    now apply openHasCandidates_relabel.
Qed.

Lemma insertField_closed (textarea : Textarea)
  (selectedField : option Candidate) (st : State) :
  isCompletionVisible (_insertField textarea selectedField st) = false.
Proof. now destruct selectedField. Qed.

Lemma openHasCandidates_step (st : State) (ev : Event) :
  openHasCandidates st -> openHasCandidates (step st ev).
Proof.
  intros Hst. unfold step.
  destruct ev as [event | event | | id | selectedName | data newSoql | | |];
    cbn [handle].
  - (* keyup *)
    assert (H0 : openHasCandidates (set_inputEl (target event) st))
      by now apply (openHasCandidates_frame (st := st)).
    unfold handleKeyupSoql.
    set (st1 := if differs _ _ then _ else _).
    assert (H1 : openHasCandidates st1).
    { unfold st1. destruct (differs _ _); [| exact H0].
      now apply (openHasCandidates_frame (st := set_inputEl (target event) st)). }
    destruct (_sobjectMeta st1); [| exact H1].
    destruct (negb _);
      [now apply openHasCandidates_open | now apply openHasCandidates_handle].
  - (* keydown *)
    assert (H0 : openHasCandidates (set_inputEl (target event) st))
      by now apply (openHasCandidates_frame (st := st)).
    unfold handleKeydownSoql.
    destruct (isCompletionVisible _).
    + destruct (isComposing event); [exact H0 |].
      destruct (keyIn _ _); [now apply openHasCandidates_select |].
      destruct (keyIn _ _); [now apply openHasCandidates_select |].
      destruct (keyIn _ _); [| exact H0].
      unfold _insertFieldByKeyboard.
      destruct (completionFields _); [| exact H0].
      apply openHasCandidates_closed, insertField_closed.
    + destruct (_ && _); [now apply openHasCandidates_open | exact H0].
  - (* blur *)
    now apply (openHasCandidates_frame (st := st)).
  - (* timeout *)
    cbn [stateOf]. unfold closeCompletionTimeout.
    destruct (existsb _ _); [now apply openHasCandidates_closed | exact Hst].
  - (* click *)
    unfold insertField.
    set (st1 := match _closeCompletionTimer st with
                | Some id => if Nat.eqb id 0 then st else clearTimeout id st
                | None => st
                end).
    assert (H1 : openHasCandidates st1).
    { unfold st1. destruct (_closeCompletionTimer st) as [id |];
        [destruct (Nat.eqb id 0) |]; exact Hst. }
    destruct (completionFields st1); [| exact H1].
    apply openHasCandidates_closed, insertField_closed.
  - (* store *)
    cbn [stateOf]. unfold storeChange.
    set (st1 := match data with Some d => set_sobjectMeta d st | None => st end).
    assert (H1 : openHasCandidates st1).
    { unfold st1. destruct data; [| exact Hst].
      now apply (openHasCandidates_frame (st := st)). }
    destruct (differs _ _); [| exact H1].
    now apply (openHasCandidates_frame (st := st1)).
  - cbn [stateOf]. unfold runQuery, _runQuery.
    destruct (value (inputEl st)); [exact Hst |].
    now apply (openHasCandidates_frame (st := st)).
  - cbn [stateOf]. unfold runQueryAll, _runQuery.
    destruct (value (inputEl st)); [exact Hst |].
    now apply (openHasCandidates_frame (st := st)).
  - now apply (openHasCandidates_frame (st := st)).
Qed.

Lemma reachable_run (evs : list Event) (st : State) :
  reachable st -> reachable (run st evs).
Proof.
  revert st. induction evs as [| ev evs IH]; intros st Hst; [exact Hst |].
  cbn. apply IH. now constructor.
Qed.

Lemma open_completion_invariant (st : State) :
  reachable st -> openHasCandidates st.
Proof.
  intros Hreach. induction Hreach as [| st ev _ IH].
  - now apply openHasCandidates_closed.
  - now apply openHasCandidates_step.
Qed.

(** C9. In every state that the panel reaches from its initial state, by
    key releases and key presses, losses of focus and their timeouts, clicks
    on a candidate, changes of the store and the query buttons, an open
    completion has a list of candidates that is not empty. *)
Theorem open_completion_has_candidates (st : State) :
  reachable st ->
  isCompletionVisible st = true ->
  exists fields, completionFields st = Some fields /\ fields <> [].
Proof.
  intros Hreach. change (openHasCandidates st).
  induction Hreach as [| st ev _ IH].
  - now apply openHasCandidates_closed.
  - now apply openHasCandidates_step.
Qed.

(* ================================================================== *)
(** ** The boundary before its first assignment

    [_selectionStart] has no value until [_openCompletion] assigns one, and
    the embedding starts it at 0.  That number is never looked at: started
    at any other number, the panel goes through the same states, up to
    [_selectionStart] itself for as long as no completion has been
    computed. *)

Lemma boundary_unobserved_step (st1 st2 : State) (ev : Event) :
  sameButBoundary st1 st2 ->
  (completionFields st1 <> None -> st1 = st2) ->
  openHasCandidates st1 ->
  sameButBoundary (step st1 ev) (step st2 ev)
  /\ (completionFields (step st1 ev) <> None -> step st1 ev = step st2 ev).
Proof.
  intros Hsame Hfields Hinv.
  destruct (completionFields st1) as [fields |] eqn:Hcf.
  { rewrite <- Hfields by discriminate. now split. }
  clear Hfields.
  assert (Hclosed : isCompletionVisible st1 = false).
  { destruct (isCompletionVisible st1) eqn:Hopen; [| reflexivity].
    destruct (Hinv Hopen) as (l & Hl & _). congruence. }
  destruct st1 as [v1 cs1 cf1 m1 b1 q1 t1 i1 p1 n1 d1].
  destruct st2 as [v2 cs2 cf2 m2 b2 q2 t2 i2 p2 n2 d2].
  unfold sameButBoundary in Hsame. cbn in Hsame, Hcf, Hclosed.
  injection Hsame as -> -> -> -> -> -> -> -> -> ->. subst cf2 v2.
  unfold sameButBoundary, step.
  destruct ev as [event | event | | id | selectedName | data newSoql | | |];
    cbn [handle].
  - unfold handleKeyupSoql, set_inputEl, dispatch.
    cbn [_soql _sobjectMeta isCompletionVisible completionStyle
         completionFields _selectionStart _closeCompletionTimer inputEl
         pendingTimers timersCreated dispatched].
    destruct (differs q2 (value (target event))), m2;
      cbn [stateOf negb]; try (split; [reflexivity | cbn; congruence]);
      unfold _openCompletion, set_selectionStart;
      cbn [_soql _sobjectMeta isCompletionVisible completionStyle
           completionFields _selectionStart _closeCompletionTimer inputEl
           pendingTimers timersCreated dispatched];
      split; reflexivity.
  - unfold handleKeydownSoql, set_inputEl.
    cbn [_soql _sobjectMeta isCompletionVisible completionStyle
         completionFields _selectionStart _closeCompletionTimer inputEl
         pendingTimers timersCreated dispatched].
    destruct (isComposing event && jsstring_eqb (key event) (lit "Enter"));
      cbn [stateOf]; try (split; [reflexivity | cbn; congruence]).
    unfold _openCompletion, set_selectionStart.
    cbn [_soql _sobjectMeta isCompletionVisible completionStyle
         completionFields _selectionStart _closeCompletionTimer inputEl
         pendingTimers timersCreated dispatched].
    split; reflexivity.
  - cbn. split; [reflexivity | congruence].
  - cbn [stateOf]. unfold closeCompletionTimeout.
    cbn [pendingTimers]. destruct (existsb _ _); cbn;
      (split; [reflexivity | congruence]).
  - unfold insertField.
    cbn [_closeCompletionTimer]. destruct t2 as [id |];
      [destruct (Nat.eqb id 0) |]; cbn; (split; [reflexivity | congruence]).
  - cbn [stateOf]. unfold storeChange, soql, set_sobjectMeta, set_soql.
    destruct data as [d |];
      cbn [_soql _sobjectMeta isCompletionVisible completionStyle
           completionFields _selectionStart _closeCompletionTimer inputEl
           pendingTimers timersCreated dispatched];
      destruct (differs q2 newSoql); cbn;
      (split; [reflexivity | congruence]).
  - cbn [stateOf]. unfold runQuery, _runQuery. cbn [inputEl].
    destruct (value i2); cbn; (split; [reflexivity | congruence]).
  - cbn [stateOf]. unfold runQueryAll, _runQuery. cbn [inputEl].
    destruct (value i2); cbn; (split; [reflexivity | congruence]).
  - cbn. split; [reflexivity | congruence].
Qed.

(** Whatever number stands for the unassigned boundary, the panel shows the
    same completion, the same candidates, the same text field and the same
    traffic with the store after every sequence of events. *)
Lemma boundary_unobserved (n : nat) (evs : list Event) :
  sameButBoundary (run initial evs) (run (set_selectionStart n initial) evs).
Proof.
  assert (Hgen : forall st1 st2,
             sameButBoundary st1 st2 ->
             (completionFields st1 <> None -> st1 = st2) ->
             reachable st1 ->
             sameButBoundary (run st1 evs) (run st2 evs)).
  { induction evs as [| ev evs IH]; intros st1 st2 Hsame Hfields Hreach.
    - exact Hsame.
    - cbn [run fold_left].
      assert (Hinv : openHasCandidates st1).
      { intros Hopen. now apply open_completion_invariant. }
      destruct (boundary_unobserved_step ev Hsame Hfields Hinv)
        as (Hsame' & Hfields').
      apply IH; [exact Hsame' | exact Hfields' | now constructor]. }
  apply Hgen.
  - reflexivity.
  - cbn. congruence.
  - constructor.
Qed.

(* ================================================================== *)
(** ** Further properties: key releases over an open completion *)

(** The first statement of [handleKeyupSoql]: the text of the field goes to
    the store when it is not the one the component holds. *)
Definition reportText (event : KeyboardEvent) (st : State) : State :=
  if differs (_soql st) (value (target event))
  then dispatch (updateSoql (Some (value (target event)))) st
  else st.

Lemma keyIn_In (k : jsstring) (labels : list jsstring) :
  keyIn k labels = true <-> In k labels.
Proof.
  unfold keyIn. rewrite existsb_exists. split.
  - intros (x & Hin & Heq). apply jsstring_eqb_eq in Heq. now subst x.
  - intros Hin. exists k. split; [exact Hin | apply jsstring_eqb_refl].
Qed.

Lemma keyIn_not_In (k : jsstring) (labels : list jsstring) :
  ~ In k labels -> keyIn k labels = false.
Proof.
  intros Hnot. destruct (keyIn k labels) eqn:Hin; [| reflexivity].
  apply keyIn_In in Hin. contradiction.
Qed.

Lemma reportText_frame (event : KeyboardEvent) (st : State) :
  isCompletionVisible (reportText event st) = isCompletionVisible st
  /\ completionFields (reportText event st) = completionFields st
  /\ _sobjectMeta (reportText event st) = _sobjectMeta st
  /\ _selectionStart (reportText event st) = _selectionStart st
  /\ inputEl (reportText event st) = inputEl st
  /\ _soql (reportText event st) = _soql st.
Proof. unfold reportText. now destruct (differs _ _). Qed.

(** Over an open completion with the fields loaded, a key release is handled
    by [_handleCompletion]. *)
Lemma handleKeyupSoql_open (event : KeyboardEvent) (st : State)
  (fields : list Field) :
  isCompletionVisible st = true ->
  _sobjectMeta st = Some fields ->
  handleKeyupSoql event st = _handleCompletion event (reportText event st).
Proof.
  intros Hopen Hmeta. unfold handleKeyupSoql. fold (reportText event st).
  destruct (reportText_frame event st) as (Hv & _ & Hm & _).
  now rewrite Hm, Hmeta, Hv, Hopen.
Qed.

Lemma selectionStart_search (event : KeyboardEvent) (st : State) :
  _selectionStart (stateOf (_searchCompletionFields event st))
  = _selectionStart st.
Proof.
  unfold _searchCompletionFields.
  destruct (newRegExp _ _ _); [| reflexivity].
  destruct (_sobjectMeta st); [| reflexivity].
  cbv zeta. now destruct (0 <? length _)%nat.
Qed.

Lemma selectionStart_handleCompletion (event : KeyboardEvent) (st : State) :
  _selectionStart (stateOf (_handleCompletion event st)) = _selectionStart st.
Proof.
  unfold _handleCompletion.
  set (st1 := if altKey event || ctrlKey event || metaKey event
              then _closeCompletion st else st).
  assert (H1 : _selectionStart st1 = _selectionStart st)
    by (unfold st1; now destruct (_ || _)).
  rewrite <- H1.
  destruct (keyIn (key event) _); [reflexivity |].
  destruct (keyIn (key event) _).
  { unfold _deleteKeyword.
    pose proof (selectionStart_search event st1) as Hsearch.
    destruct (_searchCompletionFields event st1) as [st2 | st2];
      cbn [andThen stateOf] in *; [| exact Hsearch].
    now destruct (Nat.eqb _ _). }
  destruct (keyIn (key event) _).
  { destruct (isComposing event);
      [apply selectionStart_search | reflexivity]. }
  apply selectionStart_search.
Qed.

(** X1. Over an open completion with the fields loaded, the release of
    period, comma, space, Escape, ArrowLeft or ArrowRight closes the
    completion, whatever the modifiers; the candidates, the boundary and the
    text field stay as they are, and nothing but the text report goes to the
    store. *)
Theorem keyup_closing_key_closes (event : KeyboardEvent) (st : State)
  (fields : list Field) :
  In (key event) closingKeys ->
  isCompletionVisible st = true ->
  _sobjectMeta st = Some fields ->
  handleKeyupSoql event st = Returned (_closeCompletion (reportText event st))
  /\ completionFields (_closeCompletion (reportText event st))
     = completionFields st
  /\ _selectionStart (_closeCompletion (reportText event st))
     = _selectionStart st
  /\ inputEl (_closeCompletion (reportText event st)) = inputEl st.
Proof.
  intros Hkey Hopen Hmeta.
  rewrite (handleKeyupSoql_open event st Hopen Hmeta).
  destruct (reportText_frame event st) as (_ & Hcf & _ & Hstart & Hinput & _).
  split; [| now repeat split].
  unfold _handleCompletion.
  apply keyIn_In in Hkey. unfold closingKeys in Hkey. rewrite Hkey.
  now destruct (altKey event || ctrlKey event || metaKey event).
Qed.

(** X2. Over an open completion with the fields loaded, the release of a key
    that is none of the closing keys and not Backspace, and that is
    ArrowDown, ArrowUp or Enter only during a composition, runs the search
    again on the boundary of the session: afterwards the candidates are the
    ones the search finds and the completion is open exactly when there is
    one, whether or not alt, ctrl or meta is held. *)
Theorem keyup_other_key_searches (event : KeyboardEvent) (st : State)
  (fields : list Field) :
  ~ In (key event) (closingKeys ++ [lit "Backspace"]) ->
  (In (key event) [lit "ArrowDown"; lit "ArrowUp"; lit "Enter"] ->
   isComposing event = true) ->
  isCompletionVisible st = true ->
  _sobjectMeta st = Some fields ->
  exists st' found,
    handleKeyupSoql event st = Returned st'
    /\ completionFields st' = Some found
    /\ completionFields (stateOf (_searchCompletionFields event st))
       = Some found
    /\ isCompletionVisible st' = (0 <? length found)%nat
    /\ _selectionStart st' = _selectionStart st.
Proof.
  intros Hkey Hnav Hopen Hmeta.
  rewrite (handleKeyupSoql_open event st Hopen Hmeta).
  destruct (reportText_frame event st) as (_ & _ & Hm & Hstart & _).
  unfold _handleCompletion.
  set (st1 := if altKey event || ctrlKey event || metaKey event
              then _closeCompletion (reportText event st)
              else reportText event st).
  assert (H1 : _sobjectMeta st1 = Some fields
               /\ _selectionStart st1 = _selectionStart st).
  { unfold st1. destruct (_ || _); cbn; now rewrite Hm, Hstart. }
  destruct H1 as (Hmeta1 & Hstart1).
  assert (Hclosing : keyIn (key event) closingKeys = false).
  { apply keyIn_not_In. intros Hin. apply Hkey, in_or_app. now left. }
  assert (Hback : keyIn (key event) [lit "Backspace"] = false).
  { apply keyIn_not_In. intros Hin. apply Hkey, in_or_app. now right. }
  unfold closingKeys in Hclosing. rewrite Hclosing, Hback.
  assert (Hsearch :
            (if keyIn (key event) [lit "ArrowDown"; lit "ArrowUp"; lit "Enter"]
             then if isComposing event
                  then _searchCompletionFields event st1
                  else Returned st1
             else _searchCompletionFields event st1)
            = _searchCompletionFields event st1).
  { destruct (keyIn (key event)
                [lit "ArrowDown"; lit "ArrowUp"; lit "Enter"]) eqn:Hin;
      [| reflexivity].
    apply keyIn_In in Hin. now rewrite (Hnav Hin). }
  rewrite Hsearch.
  destruct (searchCompletionFields_found event st1 Hmeta1)
    as (found & Hfound & Hreturned & Hvisible & Hstart2).
  exists (stateOf (_searchCompletionFields event st1)), found.
  split; [exact Hreturned |]. split; [exact Hfound |].
  split.
  { rewrite <- Hfound.
    apply searchCompletionFields_same_candidates.
    - now rewrite Hmeta, Hmeta1.
    - now rewrite Hstart1.
    - rewrite Hmeta. discriminate. }
  split; [exact Hvisible | now rewrite Hstart2].
Qed.

(** X3. Over an open completion with the fields loaded, the release of
    ArrowDown, ArrowUp or Enter outside a composition leaves the component
    as it is, up to the text report, when no modifier is held, and closes
    the completion when alt, ctrl or meta is held. *)
Theorem keyup_navigation_key (event : KeyboardEvent) (st : State)
  (fields : list Field) :
  In (key event) [lit "ArrowDown"; lit "ArrowUp"; lit "Enter"] ->
  isComposing event = false ->
  isCompletionVisible st = true ->
  _sobjectMeta st = Some fields ->
  handleKeyupSoql event st
  = Returned
      (if altKey event || ctrlKey event || metaKey event
       then _closeCompletion (reportText event st)
       else reportText event st).
Proof.
  intros Hkey Hcomposing Hopen Hmeta.
  rewrite (handleKeyupSoql_open event st Hopen Hmeta).
  unfold _handleCompletion. rewrite Hcomposing.
  cbn in Hkey. destruct Hkey as [<- | [<- | [<- | []]]]; reflexivity.
Qed.

(* ================================================================== *)
(** ** Further properties: opening the completion *)

(** The boundary that [_openCompletion] assigns for a text and a caret. *)
Definition boundaryFor (text : jsstring) (caret : nat) : nat :=
  orElse (_findSeparator (substring text 0 caret)) caret.

(** An event by which the store delivers the fields of the queried
    object. *)
Definition deliversFields (ev : Event) : bool :=
  match ev with
  | StoreChanged (Some (Some _)) _ => true
  | _ => false
  end.

Lemma substring_skipn_firstn (s : jsstring) (start end_ : nat) :
  start <= end_ ->
  substring s start end_ = skipn start (firstn end_ s).
Proof.
  intros Hle. unfold substring.
  rewrite skipn_firstn_comm.
  assert (Hfrom : Nat.min (Nat.min start (length s)) (Nat.min end_ (length s))
                  = Nat.min start (length s)) by lia.
  assert (Hto : Nat.max (Nat.min start (length s)) (Nat.min end_ (length s))
                = Nat.min end_ (length s)) by lia.
  rewrite Hfrom, Hto.
  destruct (Nat.le_gt_cases start (length s)) as [Hin | Hout].
  - rewrite (Nat.min_l start) by lia.
    destruct (Nat.le_gt_cases end_ (length s)) as [Hin' | Hout'].
    + now rewrite (Nat.min_l end_) by lia.
    + rewrite (Nat.min_r end_) by lia.
      rewrite !firstn_all2; [reflexivity | |]; rewrite length_skipn; lia.
  - rewrite (Nat.min_r start) by lia.
    rewrite !(skipn_all2 s) by lia.
    now rewrite !firstn_nil.
Qed.

Lemma findSeparator_split (value : jsstring) (n : nat) :
  _findSeparator value = Some n ->
  exists before c after,
    value = before ++ c :: after /\ isSeparator c = true
    /\ noSeparator after = true /\ n = length before + 1.
Proof.
  rewrite findSeparator_exec.
  destruct (execFrom _ _ 0 value) as [k |] eqn:Hexec; [| discriminate].
  cbn [option_map]. intros [= <-].
  apply separator_execFrom_some in Hexec
    as (before & c & after & Heq & Hc & Hafter & ->).
  now exists before, c, after.
Qed.

Lemma findSeparator_none (value : jsstring) :
  _findSeparator value = None <-> noSeparator value = true.
Proof.
  rewrite findSeparator_exec, <- (separator_execFrom_none value 0).
  destruct (execFrom _ _ 0 value); easy.
Qed.

Lemma noSeparator_with_separator (before after : jsstring) (c : char) :
  isSeparator c = true -> noSeparator (before ++ c :: after) = false.
Proof.
  intros Hc. rewrite noSeparator_app. cbn [noSeparator forallb].
  rewrite Hc. cbn [negb andb]. apply andb_false_r.
Qed.

(** X4. The keyword that the completion opens on.  With [b] the boundary
    that [_openCompletion] assigns and [keyword] the text from [b] to the
    caret: the keyword holds no separator; when a separator stands before
    the caret, the text before the caret ends with that separator followed
    by the keyword, and [b] is the offset after the separator; when none
    does, [b] is the caret itself and the keyword is empty, not the token
    typed so far. *)
Theorem opening_keyword_follows_last_separator (text : jsstring)
  (caret : nat) :
  let b := boundaryFor text caret in
  let keyword := substring text b caret in
  noSeparator keyword = true
  /\ (noSeparator (firstn caret text) = false ->
      exists before c,
        firstn caret text = before ++ c :: keyword
        /\ isSeparator c = true
        /\ b = length before + 1)
  /\ (noSeparator (firstn caret text) = true -> b = caret /\ keyword = []).
Proof.
  cbv zeta. unfold boundaryFor. rewrite substring_from_zero.
  destruct (_findSeparator (firstn caret text)) as [n |] eqn:Hfind.
  - destruct (findSeparator_split _ Hfind)
      as (before & c & after & Hsplit & Hc & Hafter & ->).
    assert (Hlen : length before + 1 <= caret).
    { pose proof (firstn_le_length caret text) as Hle.
      rewrite Hsplit, length_app in Hle. cbn [length] in Hle. lia. }
    assert (Hkeyword :
              substring text (length before + 1) caret = after).
    { rewrite (substring_skipn_firstn text Hlen), Hsplit.
      rewrite skipn_app.
      rewrite skipn_all2 by lia.
      replace (length before + 1 - length before) with 1 by lia.
      reflexivity. }
    cbn [orElse]. rewrite Nat.add_1_r. cbn [Nat.eqb].
    rewrite <- Nat.add_1_r, Hkeyword.
    split; [exact Hafter |]. split.
    + intros _. now exists before, c.
    + intros Hnone. rewrite Hsplit in Hnone.
      now rewrite (noSeparator_with_separator before after c Hc) in Hnone.
  - cbn [orElse].
    assert (Hkeyword : substring text caret caret = []).
    { rewrite (substring_skipn_firstn text (Nat.le_refl caret)).
      apply skipn_all2, firstn_le_length. }
    rewrite Hkeyword. split; [reflexivity |]. split.
    + intros Hsome. apply findSeparator_none in Hfind. congruence.
    + now intros _.
Qed.

Lemma keyword_without_separator (text : jsstring) (caret : nat) :
  noSeparator (firstn caret text) = true ->
  boundaryFor text caret = caret
  /\ substring text (boundaryFor text caret) caret = [].
Proof.
  intros Hnone. unfold boundaryFor. rewrite substring_from_zero.
  apply findSeparator_none in Hnone. rewrite Hnone. cbn [orElse].
  split; [reflexivity |].
  rewrite (substring_skipn_firstn text (Nat.le_refl caret)).
  apply skipn_all2, firstn_le_length.
Qed.

Lemma search_with_empty_keyword (fields : list Field) :
  filter (fun f => test (mkRegExp (literal []) canonicalize) (searchText f))
    fields
  = fields.
Proof.
  apply filter_all. intros f. apply test_literal.
  exists [], [], (searchText f). split; [reflexivity | constructor].
Qed.

(** X5. A key release over a closed completion with the fields loaded
    returns normally and assigns the boundary anew.  When the key cannot
    open the completion, it stays closed and the candidates are not
    touched.  When it can, the candidates become the fields in which the
    keyword occurs up to case, in the order of the catalog, and the
    completion is open exactly when there is one; when no separator stands
    before the caret, these are all the fields. *)
Theorem keyup_on_closed_completion (event : KeyboardEvent) (st : State)
  (fields : list Field) :
  isCompletionVisible st = false ->
  _sobjectMeta st = Some fields ->
  let text := value (target event) in
  let caret := selectionEnd (target event) in
  let keyword := substring text (boundaryFor text caret) caret in
  exists st',
    handleKeyupSoql event st = Returned st'
    /\ _selectionStart st' = boundaryFor text caret
    /\ inputEl st' = inputEl st
    /\ (_canOpenCompletion event = false ->
        isCompletionVisible st' = false
        /\ completionFields st' = completionFields st)
    /\ (_canOpenCompletion event = true ->
        exists found keep,
          completionFields st' = Some found
          /\ isCompletionVisible st' = (0 <? length found)%nat
          /\ (forall f,
                 keep f = true
                 <-> occursIgnoringCase keyword (searchText f))
          /\ map field found = filter keep fields
          /\ (noSeparator (firstn caret text) = true ->
              map field found = fields)).
Proof.
  intros Hclosed Hmeta text caret keyword.
  unfold handleKeyupSoql. fold (reportText event st).
  destruct (reportText_frame event st)
    as (Hv & Hcf & Hm & _ & Hinput & _).
  rewrite Hm, Hmeta, Hv, Hclosed. cbn [negb].
  unfold _openCompletion. fold text caret. fold (boundaryFor text caret).
  set (st1 := set_selectionStart (boundaryFor text caret)
                (reportText event st)).
  assert (Hmeta1 : _sobjectMeta st1 = Some fields) by (cbn; congruence).
  destruct (_canOpenCompletion event).
  - rewrite (searchCompletionFields_loaded event st1 Hmeta1).
    cbv zeta. cbn [_selectionStart st1 set_selectionStart].
    fold text caret keyword.
    set (keep := fun f => test (mkRegExp (literal keyword) canonicalize)
                            (searchText f)).
    set (found := mapIndexed toCandidate (filter keep fields)).
    eexists. split; [reflexivity |].
    split; [now destruct (0 <? length found)%nat |].
    split; [now destruct (0 <? length found)%nat |].
    split; [discriminate |].
    intros _. exists found, keep.
    split; [now destruct (0 <? length found)%nat |].
    split; [now destruct (0 <? length found)%nat |].
    split; [intros f; apply test_literal |].
    split; [apply field_toCandidate |].
    intros Hnone.
    destruct (keyword_without_separator text caret Hnone) as (_ & Hkeyword).
    unfold found, mapIndexed. rewrite field_toCandidate.
    unfold keep, keyword. rewrite Hkeyword.
    apply search_with_empty_keyword.
  - exists st1. split; [reflexivity |]. split; [reflexivity |].
    split; [exact Hinput |]. split; [| discriminate].
    intros _. cbn. now rewrite Hv, Hcf.
Qed.

(** X6. The press of Enter during a composition over a closed completion
    throws when the fields are not loaded: [_openCompletion] assigns the
    boundary and [_searchCompletionFields] then reads [fields] of an
    undefined [_sobjectMeta].  Nothing else of the component changes. *)
Theorem keydown_composition_enter_without_fields_throws
  (event : KeyboardEvent) (st : State) :
  isCompletionVisible st = false ->
  _sobjectMeta st = None ->
  isComposing event = true ->
  key event = lit "Enter" ->
  handleKeydownSoql event st
  = Thrown
      (set_selectionStart
         (boundaryFor (value (target event)) (selectionEnd (target event)))
         st).
Proof.
  intros Hclosed Hmeta Hcomposing Hkey.
  unfold handleKeydownSoql, _openCompletion, _canOpenCompletion.
  rewrite Hclosed, Hcomposing, Hkey.
  change (jsstring_eqb (lit "Enter") (lit "Enter")) with true.
  cbn [andb]. rewrite !orb_true_r.
  unfold _searchCompletionFields, newRegExp.
  rewrite parsePattern_escapeRegExp. cbn [_sobjectMeta set_selectionStart].
  now rewrite Hmeta.
Qed.

Lemma no_fields_step (st : State) (ev : Event) :
  deliversFields ev = false ->
  _sobjectMeta st = None /\ isCompletionVisible st = false
  /\ completionFields st = None ->
  _sobjectMeta (step st ev) = None
  /\ isCompletionVisible (step st ev) = false
  /\ completionFields (step st ev) = None.
Proof.
  intros Hev (Hmeta & Hclosed & Hfields). unfold step.
  destruct ev as [event | event | | id | selectedName | data newSoql | | |];
    cbn [handle].
  - unfold handleKeyupSoql. fold (reportText event (set_inputEl (target event) st)).
    destruct (reportText_frame event (set_inputEl (target event) st))
      as (Hv & Hcf & Hm & _).
    cbn in Hv, Hcf, Hm. rewrite Hm, Hmeta. cbn [stateOf].
    now rewrite Hv, Hcf, Hm.
  - unfold handleKeydownSoql. cbn [isCompletionVisible set_inputEl].
    rewrite Hclosed.
    destruct (isComposing event && _); [| now cbn].
    unfold _openCompletion.
    destruct (_canOpenCompletion event); [| now cbn].
    unfold _searchCompletionFields.
    destruct (newRegExp _ _ _); [| now cbn].
    cbn [_sobjectMeta set_selectionStart set_inputEl]. rewrite Hmeta.
    now cbn.
  - now cbn.
  - cbn [stateOf]. unfold closeCompletionTimeout.
    destruct (existsb _ _); now cbn.
  - unfold insertField.
    destruct (_closeCompletionTimer st) as [id |];
      [destruct (Nat.eqb id 0) |]; cbn [completionFields clearTimeout];
      rewrite Hfields; now cbn.
  - cbn [stateOf]. unfold storeChange.
    destruct data as [[d |] |]; [discriminate | |];
      destruct (differs _ _); now cbn.
  - cbn [stateOf]. unfold runQuery, _runQuery.
    now destruct (value (inputEl st)).
  - cbn [stateOf]. unfold runQueryAll, _runQuery.
    now destruct (value (inputEl st)).
  - now cbn.
Qed.

(** X7. Until the store has delivered the fields of the queried object, the
    completion never opens and no candidates are computed, whatever the
    user does: after any sequence of events without such a delivery, the
    panel started in its initial state is closed, with [completionFields]
    and [_sobjectMeta] undefined. *)
Theorem no_completion_before_fields (evs : list Event) :
  forallb (fun ev => negb (deliversFields ev)) evs = true ->
  _sobjectMeta (run initial evs) = None
  /\ isCompletionVisible (run initial evs) = false
  /\ completionFields (run initial evs) = None.
Proof.
  intros Hevs.
  assert (Hgen : forall st,
             _sobjectMeta st = None /\ isCompletionVisible st = false
             /\ completionFields st = None ->
             _sobjectMeta (run st evs) = None
             /\ isCompletionVisible (run st evs) = false
             /\ completionFields (run st evs) = None).
  { induction evs as [| ev evs IH]; intros st Hst; [exact Hst |].
    cbn [forallb] in Hevs. apply andb_true_iff in Hevs as (Hev & Hevs).
    apply negb_true_iff in Hev.
    cbn [run fold_left]. apply (IH Hevs).
    now apply no_fields_step. }
  apply Hgen. now cbn.
Qed.

(* ================================================================== *)
(** ** Further properties: the active candidate *)

(** How an event may change the list of candidates: not at all, to a list
    fresh from the search, or to the same list with the mark moved to one of
    its indices. *)
Definition fieldsChange (st st' : State) : Prop :=
  completionFields st' = completionFields st
  \/ (exists l, completionFields st' = Some (mapIndexed toCandidate l))
  \/ (exists fields k,
         completionFields st = Some fields
         /\ (0 <= k < Z.of_nat (length fields))%Z
         /\ completionFields st'
            = Some (mapIndexed (fun c i => withActive c (Z.eqb i k)) fields)).

Lemma fieldsChange_search (event : KeyboardEvent) (st : State) :
  completionFields (stateOf (_searchCompletionFields event st))
  = completionFields st
  \/ exists l,
       completionFields (stateOf (_searchCompletionFields event st))
       = Some (mapIndexed toCandidate l).
Proof.
  unfold _searchCompletionFields.
  destruct (newRegExp _ _ _) as [keywordPattern |]; [| now left].
  destruct (_sobjectMeta st) as [fields |]; [| now left].
  cbv zeta. right. eexists.
  destruct (0 <? length _)%nat; reflexivity.
Qed.

Lemma fieldsChange_open (event : KeyboardEvent) (st : State) :
  completionFields (stateOf (_openCompletion event st)) = completionFields st
  \/ exists l,
       completionFields (stateOf (_openCompletion event st))
       = Some (mapIndexed toCandidate l).
Proof.
  unfold _openCompletion.
  destruct (_canOpenCompletion event); [| now left].
  apply (fieldsChange_search event
           (set_selectionStart
              (orElse
                 (_findSeparator
                    (substring (value (target event)) 0
                       (selectionEnd (target event))))
                 (selectionEnd (target event)))
              st)).
Qed.

Lemma fieldsChange_handleCompletion (event : KeyboardEvent) (st : State) :
  completionFields (stateOf (_handleCompletion event st))
  = completionFields st
  \/ exists l,
       completionFields (stateOf (_handleCompletion event st))
       = Some (mapIndexed toCandidate l).
Proof.
  unfold _handleCompletion.
  set (st1 := if altKey event || ctrlKey event || metaKey event
              then _closeCompletion st else st).
  assert (H1 : completionFields st1 = completionFields st)
    by (unfold st1; now destruct (_ || _)).
  rewrite <- H1.
  destruct (keyIn (key event) _); [now left |].
  destruct (keyIn (key event) _).
  { unfold _deleteKeyword.
    pose proof (fieldsChange_search event st1) as Hsearch.
    destruct (_searchCompletionFields event st1) as [st2 | st2];
      cbn [andThen stateOf] in *; [| exact Hsearch].
    now destruct (Nat.eqb _ _). }
  destruct (keyIn (key event) _).
  { destruct (isComposing event);
      [apply fieldsChange_search | now left]. }
  apply fieldsChange_search.
Qed.

Lemma completionFields_insertField (textarea : Textarea)
  (selectedField : option Candidate) (st : State) :
  completionFields (_insertField textarea selectedField st)
  = completionFields st
  /\ _selectionStart (_insertField textarea selectedField st)
     = _selectionStart st
  /\ pendingTimers (_insertField textarea selectedField st)
     = pendingTimers st.
Proof. now destruct selectedField. Qed.

Lemma fieldsChange_select (st : State) :
  fieldsChange st (stateOf (_selectBellowField st))
  /\ fieldsChange st (stateOf (_selectAboveField st)).
Proof.
  unfold _selectBellowField, _selectAboveField.
  destruct (completionFields st) as [fields |] eqn:Hfields;
    [| split; now left].
  pose proof (activeIndex_range fields) as Hrange.
  split.
  - destruct (Z.ltb_spec (_getActiveFieldIndex fields + 1)
                (Z.of_nat (length fields))); [| now left].
    right. right. exists fields, (_getActiveFieldIndex fields + 1)%Z.
    split; [assumption |]. split; [lia | reflexivity].
  - destruct (Z.ltb_spec 0 (_getActiveFieldIndex fields)); [| now left].
    right. right. exists fields, (_getActiveFieldIndex fields - 1)%Z.
    split; [assumption |]. split; [lia | reflexivity].
Qed.

(** Every event changes the candidates in one of the three ways. *)
Lemma fieldsChange_step (st : State) (ev : Event) :
  fieldsChange st (step st ev).
Proof.
  unfold step, fieldsChange.
  destruct ev as [event | event | | id | selectedName | data newSoql | | |];
    cbn [handle].
  - unfold handleKeyupSoql.
    fold (reportText event (set_inputEl (target event) st)).
    destruct (reportText_frame event (set_inputEl (target event) st))
      as (_ & Hcf & _).
    cbn [completionFields set_inputEl] in Hcf.
    destruct (_sobjectMeta _); [| now left].
    destruct (negb _).
    + destruct (fieldsChange_open event
                  (reportText event (set_inputEl (target event) st)))
        as [Hsame | Hfresh]; [left; congruence | right; now left].
    + destruct (fieldsChange_handleCompletion event
                  (reportText event (set_inputEl (target event) st)))
        as [Hsame | Hfresh]; [left; congruence | right; now left].
  - unfold handleKeydownSoql.
    destruct (isCompletionVisible _).
    + destruct (isComposing event); [now left |].
      destruct (keyIn _ _);
        [apply (fieldsChange_select (set_inputEl (target event) st)) |].
      destruct (keyIn _ _);
        [apply (fieldsChange_select (set_inputEl (target event) st)) |].
      destruct (keyIn _ _); [| now left].
      unfold _insertFieldByKeyboard.
      destruct (completionFields (set_inputEl (target event) st)) eqn:Hcf;
        [| now left].
      left. cbn [stateOf].
      now rewrite (proj1 (completionFields_insertField _ _ _)).
    + destruct (_ && _); [| now left].
      destruct (fieldsChange_open event (set_inputEl (target event) st))
        as [Hsame | Hfresh]; [now left | right; now left].
  - now left.
  - cbn [stateOf]. unfold closeCompletionTimeout.
    destruct (existsb _ _); now left.
  - unfold insertField.
    set (st1 := match _closeCompletionTimer st with
                | Some id => if Nat.eqb id 0 then st else clearTimeout id st
                | None => st
                end).
    assert (H1 : completionFields st1 = completionFields st).
    { unfold st1. destruct (_closeCompletionTimer st) as [id |];
        [destruct (Nat.eqb id 0) |]; reflexivity. }
    destruct (completionFields st1) eqn:Hcf;
      [| left; cbn [stateOf]; congruence].
    left. cbn [stateOf].
    rewrite (proj1 (completionFields_insertField _ _ _)). congruence.
  - cbn [stateOf]. unfold storeChange.
    destruct data; destruct (differs _ _); now left.
  - cbn [stateOf]. unfold runQuery, _runQuery.
    destruct (value (inputEl st)); now left.
  - cbn [stateOf]. unfold runQueryAll, _runQuery.
    destruct (value (inputEl st)); now left.
  - now left.
Qed.

Lemma activeCount_flagged (A : Type) (f : A -> Z -> Candidate) (k index : Z)
  (l : list A) :
  (forall x i, isActive (f x i) = Z.eqb i k) ->
  activeCount (mapFrom f index l)
  = if ((index <=? k) && (k <? index + Z.of_nat (length l)))%Z
    then 1 else 0.
Proof.
  intros Hflag. unfold activeCount.
  revert index. induction l as [| x l IH]; intros index.
  - cbn [mapFrom filter length]. compare_indices.
  - cbn [mapFrom filter]. rewrite Hflag.
    destruct (Z.eqb_spec index k) as [-> | Hne]; cbn [length]; rewrite IH;
      compare_indices.
Qed.

Lemma one_active_invariant (st : State) :
  reachable st ->
  forall fields,
    completionFields st = Some fields ->
    activeCount fields = Nat.min 1 (length fields).
Proof.
  intros Hreach. induction Hreach as [| st ev _ IH]; [discriminate |].
  intros fields Hfields.
  destruct (fieldsChange_step st ev)
    as [Hsame | [(l & Hfresh) | (old & k & Hold & Hk & Hmoved)]].
  - apply IH. congruence.
  - assert (fields = mapIndexed toCandidate l) by congruence. subst fields.
    unfold mapIndexed. rewrite length_mapFrom.
    rewrite (activeCount_flagged toCandidate 0 0 l) by reflexivity.
    destruct l; [reflexivity |]. cbn [length]. compare_indices.
  - assert (fields
            = mapIndexed (fun c i => withActive c (Z.eqb i k)) old)
      by congruence.
    subst fields. unfold mapIndexed. rewrite length_mapFrom.
    rewrite (activeCount_flagged
               (fun c i => withActive c (Z.eqb i k)) k 0 old)
      by reflexivity.
    destruct old; cbn [length] in *; [lia |]. compare_indices.
Qed.

(** X8. In every state that the panel reaches from its initial state, a
    list of candidates that is not empty has exactly one active candidate
    (and the empty list has none). *)
Theorem reachable_list_has_one_active (st : State)
  (fields : list Candidate) :
  reachable st ->
  completionFields st = Some fields ->
  (fields <> [] -> activeCount fields = 1)
  /\ (fields = [] -> activeCount fields = 0).
Proof.
  intros Hreach Hfields.
  pose proof (one_active_invariant Hreach Hfields) as Hcount.
  split; intros Hcase.
  - rewrite Hcount. destruct fields; [congruence | reflexivity].
  - now subst fields.
Qed.

Lemma insertField_text (textarea : Textarea) (selected : Candidate)
  (st : State) :
  value (inputEl (_insertField textarea (Some selected) st))
  = firstn (_selectionStart st) (value textarea)
    ++ stripNamespace (name (field selected))
    ++ skipn (selectionStart textarea) (value textarea).
Proof.
  pose proof (insertField_inputEl textarea selected st) as Hinput.
  cbv zeta in Hinput. rewrite Hinput.
  rewrite (proj1 (setSelectionRange_caret _ _)).
  apply value_setValue.
Qed.

Lemma find_active (fields : list Candidate) :
  activeCount fields <> 0 ->
  exists c, find isActive fields = Some c /\ In c fields /\ isActive c = true.
Proof.
  unfold activeCount. intros Hcount.
  destruct (find isActive fields) as [c |] eqn:Hfind.
  - exists c. split; [reflexivity |]. now apply find_some in Hfind.
  - exfalso. apply Hcount. clear Hcount.
    induction fields as [| x fields IH]; [reflexivity |].
    cbn [find] in Hfind. cbn [filter].
    destruct (isActive x); [discriminate | now apply IH].
Qed.

(** X9. In every reachable state with the completion open, Enter pressed
    outside a composition inserts the active candidate: there is one, its
    name through [stripNamespace] takes the place of the text between the
    boundary and the caret, and the completion is closed. *)
Theorem enter_inserts_the_active_candidate (event : KeyboardEvent)
  (st : State) :
  reachable st ->
  isCompletionVisible st = true ->
  isComposing event = false ->
  key event = lit "Enter" ->
  exists fields c,
    completionFields st = Some fields
    /\ In c fields
    /\ find isActive fields = Some c
    /\ handle (Keydown event) st
       = Returned
           (_insertField (target event) (Some c)
              (set_inputEl (target event) st))
    /\ value (inputEl (step st (Keydown event)))
       = firstn (_selectionStart st) (value (target event))
         ++ stripNamespace (name (field c))
         ++ skipn (selectionStart (target event)) (value (target event))
    /\ isCompletionVisible (step st (Keydown event)) = false.
Proof.
  intros Hreach Hopen Hcomposing Hkey.
  destruct (open_completion_invariant Hreach Hopen) as (fields & Hfields & Hne).
  pose proof (one_active_invariant Hreach Hfields) as Hcount.
  assert (Hsome : activeCount fields <> 0).
  { rewrite Hcount. destruct fields; [congruence | discriminate]. }
  destruct (find_active fields Hsome) as (c & Hfind & Hin & _).
  exists fields, c.
  split; [exact Hfields |]. split; [exact Hin |]. split; [exact Hfind |].
  assert (Hhandle :
            handle (Keydown event) st
            = Returned
                (_insertField (target event) (Some c)
                   (set_inputEl (target event) st))).
  { cbn [handle]. unfold handleKeydownSoql.
    cbn [isCompletionVisible set_inputEl]. rewrite Hopen, Hcomposing, Hkey.
    change (keyIn (lit "Enter") [lit "ArrowDown"]) with false.
    change (keyIn (lit "Enter") [lit "ArrowUp"]) with false.
    change (keyIn (lit "Enter") [lit "Enter"]) with true.
    cbv iota. unfold _insertFieldByKeyboard.
    cbn [completionFields set_inputEl]. now rewrite Hfields, Hfind. }
  split; [exact Hhandle |].
  unfold step. rewrite Hhandle. cbn [stateOf].
  split; [now rewrite insertField_text | apply insertField_closed].
Qed.

(** X10. A click on the entry of a candidate of the list returns normally:
    the name of that candidate through [stripNamespace] takes the place of
    the text between the boundary and the caret of the text field, the
    completion is closed, and the timeout that the last loss of focus has
    set is no longer pending. *)
Theorem click_inserts_the_chosen_candidate (c : Candidate) (st : State)
  (fields : list Candidate) :
  completionFields st = Some fields ->
  In c fields ->
  exists st',
    insertField (name (field c)) st = Returned st'
    /\ value (inputEl st')
       = firstn (_selectionStart st) (value (inputEl st))
         ++ stripNamespace (name (field c))
         ++ skipn (selectionStart (inputEl st)) (value (inputEl st))
    /\ isCompletionVisible st' = false
    /\ (forall id,
           _closeCompletionTimer st = Some id -> id <> 0 ->
           ~ In id (pendingTimers st')).
Proof.
  intros Hfields Hin. unfold insertField.
  set (st1 := match _closeCompletionTimer st with
              | Some id => if Nat.eqb id 0 then st else clearTimeout id st
              | None => st
              end).
  assert (H1 : completionFields st1 = Some fields
               /\ inputEl st1 = inputEl st
               /\ _selectionStart st1 = _selectionStart st).
  { unfold st1. destruct (_closeCompletionTimer st) as [id |];
      [destruct (Nat.eqb id 0) |]; now repeat split. }
  destruct H1 as (Hfields1 & Hinput1 & Hstart1).
  rewrite Hfields1.
  destruct (find (fun c' => jsstring_eqb (name (field c')) (name (field c)))
              fields) as [c' |] eqn:Hfind.
  - apply find_some in Hfind as (_ & Hname).
    apply jsstring_eqb_eq in Hname.
    eexists. split; [reflexivity |].
    split.
    { rewrite insertField_text, Hinput1, Hstart1, Hname. reflexivity. }
    split; [apply insertField_closed |].
    intros id Htimer Hid.
    rewrite (proj2 (proj2 (completionFields_insertField _ _ _))).
    unfold st1. rewrite Htimer.
    apply Nat.eqb_neq in Hid. rewrite Hid.
    cbn [pendingTimers clearTimeout]. rewrite filter_In.
    intros (_ & Hkept). now rewrite Nat.eqb_refl in Hkept.
  - exfalso.
    apply (find_none _ _ Hfind) in Hin.
    now rewrite jsstring_eqb_refl in Hin.
Qed.

Lemma selectionStart_select (st : State) :
  _selectionStart (stateOf (_selectBellowField st)) = _selectionStart st
  /\ _selectionStart (stateOf (_selectAboveField st)) = _selectionStart st.
Proof.
  unfold _selectBellowField, _selectAboveField.
  destruct (completionFields st); [| now split].
  split; now destruct (_ <? _)%Z.
Qed.

(** X11. While the completion is open, no event moves the boundary: it is
    assigned only by [_openCompletion], which runs only over a closed
    completion. *)
Theorem boundary_is_fixed_while_open (st : State) (ev : Event) :
  isCompletionVisible st = true ->
  _selectionStart (step st ev) = _selectionStart st.
Proof.
  intros Hopen. unfold step.
  destruct ev as [event | event | | id | selectedName | data newSoql | | |];
    cbn [handle].
  - unfold handleKeyupSoql.
    fold (reportText event (set_inputEl (target event) st)).
    destruct (reportText_frame event (set_inputEl (target event) st))
      as (Hv & _ & _ & Hstart & _).
    cbn [isCompletionVisible _selectionStart set_inputEl] in Hv, Hstart.
    destruct (_sobjectMeta _); [| exact Hstart].
    rewrite Hv, Hopen. cbn [negb].
    now rewrite selectionStart_handleCompletion.
  - unfold handleKeydownSoql. cbn [isCompletionVisible set_inputEl].
    rewrite Hopen.
    destruct (isComposing event); [reflexivity |].
    destruct (keyIn _ _);
      [apply (selectionStart_select (set_inputEl (target event) st)) |].
    destruct (keyIn _ _);
      [apply (selectionStart_select (set_inputEl (target event) st)) |].
    destruct (keyIn _ _); [| reflexivity].
    unfold _insertFieldByKeyboard.
    destruct (completionFields _); [| reflexivity].
    cbn [stateOf].
    now rewrite (proj1 (proj2 (completionFields_insertField _ _ _))).
  - reflexivity.
  - cbn [stateOf]. unfold closeCompletionTimeout.
    now destruct (existsb _ _).
  - unfold insertField.
    set (st1 := match _closeCompletionTimer st with
                | Some id => if Nat.eqb id 0 then st else clearTimeout id st
                | None => st
                end).
    assert (H1 : _selectionStart st1 = _selectionStart st).
    { unfold st1. destruct (_closeCompletionTimer st) as [id |];
        [destruct (Nat.eqb id 0) |]; reflexivity. }
    destruct (completionFields st1); [| exact H1].
    cbn [stateOf].
    now rewrite (proj1 (proj2 (completionFields_insertField _ _ _))).
  - cbn [stateOf]. unfold storeChange.
    destruct data; now destruct (differs _ _).
  - cbn [stateOf]. unfold runQuery, _runQuery.
    now destruct (value (inputEl st)).
  - cbn [stateOf]. unfold runQueryAll, _runQuery.
    now destruct (value (inputEl st)).
  - reflexivity.
Qed.

(* ================================================================== *)
(** ** Further properties: moving the selection back and forth *)

Lemma withActive_same (c : Candidate) : withActive c (isActive c) = c.
Proof. now destruct c. Qed.

Lemma findIndexFrom_mark (k index : Z) (fields : list Candidate) :
  (index <= k < index + Z.of_nat (length fields))%Z ->
  findIndexFrom isActive index
    (mapFrom (fun c i => withActive c (Z.eqb i k)) index fields)
  = k.
Proof.
  revert index. induction fields as [| c fields IH]; intros index Hk.
  - cbn [length] in Hk. lia.
  - cbn [mapFrom findIndexFrom withActive isActive].
    destruct (Z.eqb_spec index k) as [-> | Hne]; [reflexivity |].
    apply IH. cbn [length] in Hk. lia.
Qed.

Lemma mapFrom_mark_twice (k k' index : Z) (fields : list Candidate) :
  mapFrom (fun c i => withActive c (Z.eqb i k')) index
    (mapFrom (fun c i => withActive c (Z.eqb i k)) index fields)
  = mapFrom (fun c i => withActive c (Z.eqb i k')) index fields.
Proof.
  revert index. induction fields as [| c fields IH]; intros index;
    [reflexivity |].
  cbn [mapFrom]. now rewrite IH.
Qed.

Lemma mark_none_active (k index : Z) (fields : list Candidate) :
  activeCount fields = 0 ->
  (k < index)%Z ->
  mapFrom (fun c i => withActive c (Z.eqb i k)) index fields = fields.
Proof.
  unfold activeCount. revert index.
  induction fields as [| c fields IH]; intros index Hcount Hk;
    [reflexivity |].
  cbn [filter] in Hcount. cbn [mapFrom].
  destruct (isActive c) eqn:Hc; [discriminate |].
  rewrite IH by (auto; lia).
  replace (Z.eqb index k) with false by (symmetry; apply Z.eqb_neq; lia).
  now rewrite <- Hc, withActive_same.
Qed.

Lemma mark_the_active (index : Z) (fields : list Candidate) :
  (0 <= index)%Z ->
  activeCount fields = 1 ->
  mapFrom
    (fun c i => withActive c (Z.eqb i (findIndexFrom isActive index fields)))
    index fields
  = fields.
Proof.
  unfold activeCount. revert index.
  induction fields as [| c fields IH]; intros index Hindex Hcount;
    [reflexivity |].
  cbn [filter] in Hcount. cbn [mapFrom findIndexFrom].
  destruct (isActive c) eqn:Hc.
  - rewrite Z.eqb_refl.
    rewrite mark_none_active by (unfold activeCount; cbn in Hcount; lia).
    now rewrite <- Hc, withActive_same.
  - rewrite IH by (auto; lia).
    destruct (findIndexFrom_range isActive (index + 1) fields)
      as [Hnone | Hrange].
    + rewrite Hnone.
      replace (Z.eqb index (-1)) with false
        by (symmetry; apply Z.eqb_neq; lia).
      now rewrite <- Hc, withActive_same.
    + replace (Z.eqb index (findIndexFrom isActive (index + 1) fields))
        with false by (symmetry; apply Z.eqb_neq; lia).
      now rewrite <- Hc, withActive_same.
Qed.

Lemma activeIndex_found (index : Z) (fields : list Candidate) :
  (0 <= index)%Z ->
  activeCount fields <> 0 ->
  (index <= findIndexFrom isActive index fields)%Z.
Proof.
  unfold activeCount. revert index.
  induction fields as [| c fields IH]; intros index Hindex Hcount;
    [now cbn in Hcount |].
  cbn [filter] in Hcount. cbn [findIndexFrom].
  destruct (isActive c); [lia |].
  specialize (IH (index + 1)%Z). lia.
Qed.

(** X12. On a list with exactly one active candidate, the two moves undo
    each other: when Next moves the mark (the active candidate is not the
    last one), Prev after it gives back the component as it was, and when
    Prev moves the mark (the active candidate is not the first one), Next
    after it does. *)
Theorem selection_moves_undo_each_other (st : State)
  (fields : list Candidate) :
  completionFields st = Some fields ->
  activeCount fields = 1 ->
  ((_getActiveFieldIndex fields + 1 < Z.of_nat (length fields))%Z ->
   andThen (_selectBellowField st) _selectAboveField = Returned st)
  /\ ((0 < _getActiveFieldIndex fields)%Z ->
      andThen (_selectAboveField st) _selectBellowField = Returned st).
Proof.
  intros Hfields Hone.
  pose proof (activeIndex_range fields) as Hrange.
  assert (Hfound : (0 <= _getActiveFieldIndex fields)%Z).
  { apply (@activeIndex_found 0%Z fields); [lia | now rewrite Hone]. }
  assert (Hsame :
            mapIndexed
              (fun c i => withActive c (Z.eqb i (_getActiveFieldIndex fields)))
              fields
            = fields).
  { apply (@mark_the_active 0%Z fields); [lia | exact Hone]. }
  assert (Hback : forall l, set_completionFields (Some fields)
                              (set_completionFields (Some l) st) = st).
  { intros l. destruct st. cbn in Hfields |- *. now rewrite Hfields. }
  split; intros Hmove.
  - unfold _selectBellowField at 1. rewrite Hfields.
    apply Z.ltb_lt in Hmove. rewrite Hmove. cbn [andThen].
    apply Z.ltb_lt in Hmove.
    unfold _selectAboveField. cbn [completionFields set_completionFields].
    assert (Hindex :
              _getActiveFieldIndex
                (mapIndexed
                   (fun c i =>
                      withActive c (Z.eqb i (_getActiveFieldIndex fields + 1)))
                   fields)
              = (_getActiveFieldIndex fields + 1)%Z).
    { unfold _getActiveFieldIndex at 1, findIndex, mapIndexed.
      apply findIndexFrom_mark. lia. }
    rewrite !Hindex. unfold mapIndexed.
    replace (0 <? _getActiveFieldIndex fields + 1)%Z with true
      by (symmetry; apply Z.ltb_lt; lia).
    rewrite mapFrom_mark_twice.
    replace (_getActiveFieldIndex fields + 1 - 1)%Z
      with (_getActiveFieldIndex fields) by lia.
    unfold mapIndexed in Hsame. rewrite Hsame. now rewrite Hback.
  - unfold _selectAboveField at 1. rewrite Hfields.
    apply Z.ltb_lt in Hmove. rewrite Hmove. cbn [andThen].
    apply Z.ltb_lt in Hmove.
    unfold _selectBellowField. cbn [completionFields set_completionFields].
    assert (Hindex :
              _getActiveFieldIndex
                (mapIndexed
                   (fun c i =>
                      withActive c (Z.eqb i (_getActiveFieldIndex fields - 1)))
                   fields)
              = (_getActiveFieldIndex fields - 1)%Z).
    { unfold _getActiveFieldIndex at 1, findIndex, mapIndexed.
      apply findIndexFrom_mark. lia. }
    rewrite !Hindex. unfold mapIndexed.
    rewrite length_mapFrom.
    replace (_getActiveFieldIndex fields - 1 + 1
             <? Z.of_nat (length fields))%Z with true
      by (symmetry; apply Z.ltb_lt; lia).
    rewrite mapFrom_mark_twice.
    replace (_getActiveFieldIndex fields - 1 + 1)%Z
      with (_getActiveFieldIndex fields) by lia.
    unfold mapIndexed in Hsame. rewrite Hsame. now rewrite Hback.
Qed.

(* ================================================================== *)
(** ** Further properties: the deferred close and the store *)

(** The handle of the last timeout, the timeouts that are pending and the
    number of timeouts created so far. *)
Definition timersOf (st : State) : option nat * list nat * nat :=
  (_closeCompletionTimer st, pendingTimers st, timersCreated st).

Lemma timersOf_search (event : KeyboardEvent) (st : State) :
  timersOf (stateOf (_searchCompletionFields event st)) = timersOf st.
Proof.
  unfold _searchCompletionFields.
  destruct (newRegExp _ _ _); [| reflexivity].
  destruct (_sobjectMeta st); [| reflexivity].
  cbv zeta. now destruct (0 <? length _)%nat.
Qed.

Lemma timersOf_open (event : KeyboardEvent) (st : State) :
  timersOf (stateOf (_openCompletion event st)) = timersOf st.
Proof.
  unfold _openCompletion.
  destruct (_canOpenCompletion event); [| reflexivity].
  now rewrite timersOf_search.
Qed.

Lemma timersOf_handleCompletion (event : KeyboardEvent) (st : State) :
  timersOf (stateOf (_handleCompletion event st)) = timersOf st.
Proof.
  unfold _handleCompletion.
  set (st1 := if altKey event || ctrlKey event || metaKey event
              then _closeCompletion st else st).
  assert (H1 : timersOf st1 = timersOf st)
    by (unfold st1; now destruct (_ || _)).
  rewrite <- H1.
  destruct (keyIn (key event) _); [reflexivity |].
  destruct (keyIn (key event) _).
  { unfold _deleteKeyword.
    pose proof (timersOf_search event st1) as Hsearch.
    destruct (_searchCompletionFields event st1) as [st2 | st2];
      cbn [andThen stateOf] in *; [| exact Hsearch].
    now destruct (Nat.eqb _ _). }
  destruct (keyIn (key event) _).
  { destruct (isComposing event); [apply timersOf_search | reflexivity]. }
  apply timersOf_search.
Qed.

Lemma timersOf_select (st : State) :
  timersOf (stateOf (_selectBellowField st)) = timersOf st
  /\ timersOf (stateOf (_selectAboveField st)) = timersOf st.
Proof.
  unfold _selectBellowField, _selectAboveField.
  destruct (completionFields st); [| now split].
  split; now destruct (_ <? _)%Z.
Qed.

Lemma timersOf_insertField (textarea : Textarea)
  (selectedField : option Candidate) (st : State) :
  timersOf (_insertField textarea selectedField st) = timersOf st.
Proof. now destruct selectedField. Qed.

(** The keyboard handlers leave the timeouts alone. *)
Lemma timersOf_keyboard (event : KeyboardEvent) (st : State) :
  timersOf (step st (Keyup event)) = timersOf st
  /\ timersOf (step st (Keydown event)) = timersOf st.
Proof.
  unfold step. cbn [handle]. split.
  - unfold handleKeyupSoql.
    fold (reportText event (set_inputEl (target event) st)).
    assert (H1 : timersOf (reportText event (set_inputEl (target event) st))
                 = timersOf st)
      by (unfold reportText; now destruct (differs _ _)).
    destruct (_sobjectMeta _); [| exact H1].
    destruct (negb _);
      [now rewrite timersOf_open | now rewrite timersOf_handleCompletion].
  - unfold handleKeydownSoql.
    destruct (isCompletionVisible _).
    + destruct (isComposing event); [reflexivity |].
      destruct (keyIn _ _);
        [apply (timersOf_select (set_inputEl (target event) st)) |].
      destruct (keyIn _ _);
        [apply (timersOf_select (set_inputEl (target event) st)) |].
      destruct (keyIn _ _); [| reflexivity].
      unfold _insertFieldByKeyboard.
      destruct (completionFields _); [| reflexivity].
      cbn [stateOf]. now rewrite timersOf_insertField.
    + destruct (_ && _); [| reflexivity].
      now rewrite timersOf_open.
Qed.

Lemma timers_fresh (st : State) :
  reachable st ->
  forall id, In id (pendingTimers st) -> 1 <= id <= timersCreated st.
Proof.
  intros Hreach. induction Hreach as [| st ev _ IH]; [now cbn |].
  intros id.
  destruct ev as [event | event | | fired | selectedName | data newSoql | | |].
  - pose proof (proj1 (timersOf_keyboard event st)) as Hsame.
    unfold timersOf in Hsame. injection Hsame as _ -> ->. apply IH.
  - pose proof (proj2 (timersOf_keyboard event st)) as Hsame.
    unfold timersOf in Hsame. injection Hsame as _ -> ->. apply IH.
  - cbn. intros [<- | Hin]; [lia |]. specialize (IH id Hin). lia.
  - unfold step. cbn [handle stateOf]. unfold closeCompletionTimeout.
    destruct (existsb _ _); [| apply IH].
    cbn. rewrite filter_In. intros (Hin & _). now apply IH.
  - unfold step. cbn [handle]. unfold insertField.
    set (st1 := match _closeCompletionTimer st with
                | Some t => if Nat.eqb t 0 then st else clearTimeout t st
                | None => st
                end).
    assert (H1 : timersCreated st1 = timersCreated st
                 /\ (In id (pendingTimers st1) -> In id (pendingTimers st))).
    { unfold st1. destruct (_closeCompletionTimer st) as [t |];
        [destruct (Nat.eqb t 0) |]; (split; [reflexivity |]); auto.
      cbn. rewrite filter_In. tauto. }
    destruct H1 as (Hcreated & Hpending).
    destruct (completionFields st1); cbn [stateOf].
    + pose proof (timersOf_insertField (inputEl st1)
                    (find (fun c => jsstring_eqb (name (field c)) selectedName)
                       l) st1) as Hsame.
      unfold timersOf in Hsame. injection Hsame as _ -> ->.
      rewrite Hcreated. intros Hin. apply IH. auto.
    + rewrite Hcreated. intros Hin. apply IH. auto.
  - unfold step. cbn [handle stateOf]. unfold storeChange.
    destruct data; destruct (differs _ _); apply IH.
  - unfold step. cbn [handle stateOf]. unfold runQuery, _runQuery.
    destruct (value (inputEl st)); apply IH.
  - unfold step. cbn [handle stateOf]. unfold runQueryAll, _runQuery.
    destruct (value (inputEl st)); apply IH.
  - apply IH.
Qed.

Lemma filter_keeps_all (A : Type) (p : A -> bool) (l : list A) :
  (forall x, In x l -> p x = true) -> filter p l = l.
Proof.
  induction l as [| x l IH]; intros Hp; [reflexivity |].
  cbn. rewrite (Hp x) by now left.
  f_equal. apply IH. intros y Hy. apply Hp. now right.
Qed.

(** X13. A click on a candidate right after a loss of focus cancels the
    close that the loss of focus has deferred: in every reachable state,
    after the two events the pending timeouts are those from before the
    loss of focus, and the firing of the cancelled timeout changes
    nothing. *)
Theorem click_cancels_the_deferred_close (st : State)
  (selectedName : jsstring) :
  reachable st ->
  let st' := run st [Blur; CandidateChosen selectedName] in
  pendingTimers st' = pendingTimers st
  /\ step st' (TimeoutFired (S (timersCreated st))) = st'.
Proof.
  intros Hreach st'.
  pose proof (timers_fresh Hreach) as Hfresh.
  assert (Hkept : forall x,
             In x (pendingTimers st) ->
             negb (Nat.eqb x (S (timersCreated st))) = true).
  { intros x Hx. apply negb_true_iff, Nat.eqb_neq.
    specialize (Hfresh x Hx). lia. }
  assert (Hpending : pendingTimers st' = pendingTimers st).
  { unfold st', run. cbn [fold_left].
    change (step st Blur) with (setTimeout st).
    assert (Hclick :
              pendingTimers (step (setTimeout st) (CandidateChosen selectedName))
              = pendingTimers
                  (clearTimeout (S (timersCreated st)) (setTimeout st))).
    { unfold step. cbn [handle]. unfold insertField.
      change (_closeCompletionTimer (setTimeout st))
        with (Some (S (timersCreated st))).
      cbn [Nat.eqb].
      destruct (completionFields _); cbn [stateOf]; [| reflexivity].
      apply completionFields_insertField. }
    rewrite Hclick. cbn [pendingTimers clearTimeout setTimeout filter].
    rewrite Nat.eqb_refl. cbn [negb].
    now apply filter_keeps_all. }
  split; [exact Hpending |].
  unfold step. cbn [handle stateOf]. unfold closeCompletionTimeout.
  rewrite Hpending.
  destruct (existsb (Nat.eqb (S (timersCreated st))) (pendingTimers st))
    eqn:Hin; [| reflexivity].
  apply existsb_exists in Hin as (x & Hx & Heq).
  apply Nat.eqb_eq in Heq. subst x.
  specialize (Hfresh _ Hx). lia.
Qed.

(** X14. The keyboard handlers never cancel the deferred close: when a key
    is released or pressed between a loss of focus and the firing of its
    timeout, the timeout still closes the completion, open or not. *)
Theorem keystroke_does_not_cancel_the_deferred_close (st : State)
  (event : KeyboardEvent) :
  isCompletionVisible
    (run st [Blur; Keyup event; TimeoutFired (S (timersCreated st))])
  = false
  /\ isCompletionVisible
       (run st [Blur; Keydown event; TimeoutFired (S (timersCreated st))])
     = false.
Proof.
  assert (Hfires : forall st1,
             timersOf st1 = timersOf (step st Blur) ->
             isCompletionVisible
               (step st1 (TimeoutFired (S (timersCreated st)))) = false).
  { intros st1 Hsame. unfold timersOf in Hsame. cbn in Hsame.
    injection Hsame as _ Hpending _.
    unfold step. cbn [handle stateOf]. unfold closeCompletionTimeout.
    rewrite Hpending. cbn [existsb]. now rewrite Nat.eqb_refl. }
  unfold run. cbn [fold_left].
  split; apply Hfires; apply timersOf_keyboard.
Qed.

(** X15. [storeChange] leaves the completion alone and is idempotent.  After
    it the component holds the text of the store in [_soql].  The text field
    is assigned, through the setter of [soql], only when the text of the
    store differs from the one the component held; otherwise it is not
    touched, even if its own text is another one. *)
Theorem storeChange_is_idempotent (data : option (option (list Field)))
  (newSoql : jsstring) (st : State) :
  let st' := storeChange data newSoql st in
  storeChange data newSoql st' = st'
  /\ _soql st' = Some newSoql
  /\ isCompletionVisible st' = isCompletionVisible st
  /\ completionFields st' = completionFields st
  /\ _selectionStart st' = _selectionStart st
  /\ (differs (_soql st) newSoql = false -> inputEl st' = inputEl st).
Proof.
  cbv zeta.
  assert (Hrefl : differs (Some newSoql) newSoql = false).
  { cbn. now rewrite jsstring_eqb_refl. }
  unfold storeChange, soql.
  destruct data as [d |];
    cbn [_soql set_sobjectMeta];
    destruct (differs (_soql st) newSoql) eqn:Hdiffers;
    cbn [_soql set_soql set_sobjectMeta]; rewrite ?Hrefl, ?Hdiffers;
    (split; [now destruct st |]);
    (split;
     [first [reflexivity
            | destruct (_soql st) as [s |]; [| discriminate];
              cbn in Hdiffers; apply negb_false_iff in Hdiffers;
              apply jsstring_eqb_eq in Hdiffers; now subst s] |]);
    repeat split; try reflexivity; discriminate.
Qed.

End QueryEditorPanel.

(* ================================================================== *)
(** ** A panel on the fields of an object

    The parameters of the section, fixed for texts and names in ASCII: case
    folding maps the letters [a-z] to [A-Z]; the names carry no namespace,
    so [stripNamespace] returns them as they are; the style is not looked
    at. *)

Definition canonicalizeAscii (c : char) : char :=
  if ((97 <=? c) && (c <=? 122))%N then (c - 32)%N else c.

Definition noNamespace (apiName : jsstring) : jsstring := apiName.

Definition noStyle (_ : Textarea) : unit := tt.

Definition accountFields : list (Field unit) :=
  [mkField (lit "Name") (lit "Name") tt;
   mkField (lit "Id") (lit "Record ID") tt].

(** A key without modifier, outside a composition, on a text field with the
    given text and selection. *)
Definition keystroke (k text : string) (from to : nat) : KeyboardEvent :=
  mkKeyboardEvent (lit k) false false false false
    (mkTextarea (lit text) from to).

Definition withCtrl (event : KeyboardEvent) : KeyboardEvent :=
  mkKeyboardEvent (key event) (altKey event) true (metaKey event)
    (isComposing event) (target event).

Definition panelStep (st : State unit unit) (ev : Event unit)
  : State unit unit :=
  step canonicalizeAscii noNamespace noStyle st ev.

Definition panelRun (evs : list (Event unit)) : State unit unit :=
  run canonicalizeAscii noNamespace noStyle (initial unit unit) evs.

(** The store delivers the fields and the text ["SELECT "]. *)
Definition loaded : Event unit :=
  StoreChanged (Some (Some accountFields)) (lit "SELECT ").

(** The user has typed [N] after ["SELECT "]: the completion is open on the
    boundary 7 with the candidate [Name]. *)
Definition typedN : State unit unit :=
  panelRun [loaded; Keyup unit (keystroke "N" "SELECT N" 8 8)].

(** The user has typed [e] after ["SELECT "]: both fields are candidates,
    [Name] is active. *)
Definition typedE : State unit unit :=
  panelRun [loaded; Keyup unit (keystroke "e" "SELECT e" 8 8)].

(** ... and has then moved the selection down to [Id]. *)
Definition typedEDown : State unit unit :=
  panelStep typedE (Keydown unit (keystroke "ArrowDown" "SELECT e" 8 8)).

Definition candidate (f : Field unit) (active : bool) : Candidate unit :=
  mkCandidate f (name f ++ lit " / " ++ label f) active.

Definition nameField : Field unit := mkField (lit "Name") (lit "Name") tt.
Definition idField : Field unit := mkField (lit "Id") (lit "Record ID") tt.

Lemma reachable_panelRun (evs : list (Event unit)) :
  reachable canonicalizeAscii noNamespace noStyle (panelRun evs).
Proof. apply reachable_run. constructor. Qed.

Example typedN_open :
  isCompletionVisible typedN = true
  /\ _selectionStart typedN = 7
  /\ completionFields typedN = Some [candidate nameField true].
Proof. repeat split. Qed.

Example typedE_open :
  isCompletionVisible typedE = true
  /\ completionFields typedE
     = Some [candidate nameField true; candidate idField false]
  /\ completionFields typedEDown
     = Some [candidate nameField false; candidate idField true].
Proof. repeat split. Qed.

(** The scenario of the design: the keyword ["id"] on the two fields keeps
    [Id] alone, active. *)
Example keyword_id_keeps_Id :
  completionFields
    (panelRun [loaded; Keyup unit (keystroke "i" "SELECT i" 8 8);
               Keyup unit (keystroke "d" "SELECT id" 9 9)])
  = Some [candidate idField true].
Proof. reflexivity. Qed.

(** The scenario of the design: Enter on the active candidate puts its name
    in place of the typed token and the caret after it. *)
Example enter_inserts_active_candidate :
  inputEl (panelStep typedN (Keydown unit (keystroke "Enter" "SELECT N" 8 8)))
  = mkTextarea (lit "SELECT Name") 11 11.
Proof. reflexivity. Qed.

(* ================================================================== *)
(** ** The theorems at work on the panel *)

Lemma searchCompletionFields_filters_witness :
  let event := keystroke "d" "SELECT id" 9 9 in
  let st := panelRun [loaded; Keyup unit (keystroke "i" "SELECT i" 8 8)] in
  let keyword := lit "id" in
  (_sobjectMeta st = Some accountFields
   /\ _searchCompletionFields canonicalizeAscii noStyle event st
      = Returned
          (set_isCompletionVisible true
             (_setCompletionPosition noStyle event
                (set_completionFields (Some [candidate idField true]) st))))
  /\ exists st' found keep,
       _searchCompletionFields canonicalizeAscii noStyle event st
       = Returned st'
       /\ completionFields st' = Some found
       /\ (forall f,
              keep f = true
              <-> occursIgnoringCase canonicalizeAscii keyword
                    (name f ++ lit " " ++ label f))
       /\ map (@field unit) found = filter keep accountFields
       /\ (forall i c,
              nth_error found i = Some c ->
              isActive c = Nat.eqb i 0
              /\ itemLabel c = name (field c) ++ lit " / " ++ label (field c))
       /\ (keyword = [] -> map (@field unit) found = accountFields).
Proof.
  split; [split; reflexivity |].
  apply (@searchCompletionFields_filters canonicalizeAscii unit unit noStyle
           (keystroke "d" "SELECT id" 9 9)
           (panelRun [loaded; Keyup unit (keystroke "i" "SELECT i" 8 8)])
           accountFields).
  reflexivity.
Defined.

Lemma selection_keeps_one_active_witness :
  activeCount [candidate nameField true; candidate idField false] = 1
  /\ (exists st' fields',
         _selectBellowField typedE = Returned st'
         /\ completionFields st' = Some fields'
         /\ activeCount fields' = 1)
  /\ (exists st' fields',
         _selectAboveField typedE = Returned st'
         /\ completionFields st' = Some fields'
         /\ activeCount fields' = 1).
Proof.
  split; [reflexivity |].
  apply (@selection_keeps_one_active unit unit typedE
           [candidate nameField true; candidate idField false]).
  - reflexivity.
  - discriminate.
  - reflexivity.
Defined.


Lemma selection_changes_only_flags_witness :
  (exists fields',
      _selectBellowField typedE
      = Returned (set_completionFields (Some fields') typedE)
      /\ length fields' = 2
      /\ Forall2 (@sameButActive unit)
           [candidate nameField true; candidate idField false] fields')
  /\ (exists fields',
         _selectAboveField typedE
         = Returned (set_completionFields (Some fields') typedE)
         /\ length fields' = 2
         /\ Forall2 (@sameButActive unit)
              [candidate nameField true; candidate idField false] fields').
Proof.
  apply (@selection_changes_only_flags unit unit typedE
           [candidate nameField true; candidate idField false]).
  reflexivity.
Defined.

Lemma insertField_splices_witness :
  let textarea := mkTextarea (lit "SELECT Na FROM Account") 9 9 in
  let st := set_selectionStart 7 typedN in
  let st' :=
    _insertField noNamespace textarea (Some (candidate nameField true)) st in
  7 <= length (lit "SELECT Na FROM Account")
  /\ value (inputEl st') = lit "SELECT Name FROM Account"
  /\ selectionStart (inputEl st') = 11
  /\ selectionEnd (inputEl st') = 11
  /\ firstn 11 (value (inputEl st')) = lit "SELECT Name"
  /\ skipn 11 (value (inputEl st')) = lit " FROM Account".
Proof.
  cbv zeta.
  pose proof (@insertField_splices noNamespace unit unit
                (mkTextarea (lit "SELECT Na FROM Account") 9 9)
                (candidate nameField true)
                (set_selectionStart 7 typedN)) as H.
  cbv zeta in H.
  destruct H as (Htext & _ & _ & _ & Hcaret).
  assert (Hb : 7 <= length (lit "SELECT Na FROM Account")) by (cbn; lia).
  destruct (Hcaret Hb) as (Hstart & Hend & Hprefix & Hsuffix).
  split; [exact Hb |].
  split; [exact Htext |].
  split; [exact Hstart |].
  split; [exact Hend |].
  split; [exact Hprefix | exact Hsuffix].
Defined.

Lemma insertField_without_candidate_closes_witness :
  let st := set_completionFields (Some []) typedN in
  _insertFieldByKeyboard noNamespace (keystroke "Enter" "SELECT N" 8 8) st
  = Returned (_closeCompletion st)
  /\ inputEl (_closeCompletion st) = inputEl typedN
  /\ exists st'',
       insertField noNamespace (lit "Name") st = Returned st''
       /\ isCompletionVisible st'' = false
       /\ inputEl st'' = inputEl st
       /\ _soql st'' = _soql st.
Proof.
  cbv zeta.
  pose proof (@insertField_without_candidate_closes noNamespace unit unit
                (mkTextarea (lit "SELECT N") 8 8)
                (set_completionFields (Some []) typedN)) as H.
  cbv zeta in H. destruct H as (_ & Hkeyboard & Hclick).
  split; [apply (Hkeyboard _ [] eq_refl eq_refl) |].
  split; [reflexivity |].
  apply (Hclick (lit "Name") eq_refl).
Defined.


Lemma open_completion_has_candidates_witness :
  isCompletionVisible typedE = true
  /\ exists fields, completionFields typedE = Some fields /\ fields <> [].
Proof.
  split; [reflexivity |].
  apply (@open_completion_has_candidates canonicalizeAscii noNamespace unit
           unit noStyle typedE).
  - apply reachable_panelRun.
  - reflexivity.
Defined.

(** Backspace down to the boundary closes the completion, as in the
    scenario of the design. *)
Example backspace_to_boundary_closes :
  isCompletionVisible
    (panelStep typedN (Keyup unit (keystroke "Backspace" "SELECT " 7 7)))
  = false.
Proof. reflexivity. Qed.

(** *** Where the code departs from the design *)

(** C1 fails when the text has become shorter than the boundary of the
    session.  Completion opens on ["SELECT N"] with boundary 7; the user
    selects the whole text with the mouse and types [a], which leaves the
    completion open; with the caret put back at offset 0, Enter inserts
    [Name].  The text is then ["aNamea"] with the caret at its end, offset 6:
    the caret is not at [7 + 4], it is behind the suffix ["a"] and not at the
    end of the inserted name, and the first [7 + 4] code units of the text
    are not ["a" + "Name"]. *)
Lemma insertField_stale_boundary_counterexample :
  let before :=
    panelStep typedN (Keyup unit (keystroke "a" "a" 1 1)) in
  let after :=
    panelStep before (Keydown unit (keystroke "Enter" "a" 0 0)) in
  isCompletionVisible before = true
  /\ _selectionStart before = 7
  /\ find (@isActive unit) (match completionFields before with
                           | Some fields => fields
                           | None => []
                           end)
     = Some (candidate nameField true)
  /\ value (inputEl after) = lit "aNamea"
  /\ selectionStart (inputEl after) = 6
  /\ selectionStart (inputEl after) <> 7 + length (lit "Name")
  /\ firstn (7 + length (lit "Name")) (value (inputEl after))
     <> firstn 7 (lit "a") ++ lit "Name".
Proof.
  cbv zeta. repeat split; try reflexivity; vm_compute; discriminate.
Qed.


(** C2 and the code.  Completion is open on ["SELECT N"]; the user presses
    Ctrl+A.  The keyup of [a] arrives with [ctrlKey] set: [_handleCompletion]
    closes the completion and then, in the default branch of its [switch],
    searches again, finds [Name] and opens it. *)
Lemma modifier_keyup_leaves_completion_open :
  let event := withCtrl (keystroke "a" "SELECT N" 0 8) in
  let after := panelStep typedN (Keyup unit event) in
  isCompletionVisible typedN = true
  /\ ctrlKey event = true
  /\ isCompletionVisible after = true
  /\ completionFields after = Some [candidate nameField true].
Proof. cbv zeta. repeat split. Qed.

(* ================================================================== *)
(** ** The further properties at work on the panel *)

(** Enter pressed during a composition. *)
Definition composedEnter (text : string) (caret : nat) : KeyboardEvent :=
  mkKeyboardEvent (lit "Enter") false false false true
    (mkTextarea (lit text) caret caret).

Lemma reachable_panelStep (st : State unit unit) (ev : Event unit) :
  reachable canonicalizeAscii noNamespace noStyle st ->
  reachable canonicalizeAscii noNamespace noStyle (panelStep st ev).
Proof. intros Hreach. now constructor. Qed.

Lemma keyup_closing_key_closes_witness :
  let event := keystroke " " "SELECT N " 9 9 in
  handleKeyupSoql canonicalizeAscii noStyle event typedN
  = Returned (_closeCompletion (reportText event typedN)).
Proof.
  cbv zeta.
  apply (@keyup_closing_key_closes canonicalizeAscii unit unit noStyle
           (keystroke " " "SELECT N " 9 9) typedN accountFields).
  - right. right. left. reflexivity.
  - reflexivity.
  - reflexivity.
Defined.

Lemma keyup_other_key_searches_witness :
  let event := keystroke "a" "SELECT Na" 9 9 in
  exists st' found,
    handleKeyupSoql canonicalizeAscii noStyle event typedN = Returned st'
    /\ completionFields st' = Some found
    /\ completionFields
         (stateOf
            (_searchCompletionFields canonicalizeAscii noStyle event typedN))
       = Some found
    /\ isCompletionVisible st' = (0 <? length found)%nat
    /\ _selectionStart st' = _selectionStart typedN.
Proof.
  cbv zeta.
  apply (@keyup_other_key_searches canonicalizeAscii unit unit noStyle
           (keystroke "a" "SELECT Na" 9 9) typedN accountFields).
  - intros H. cbn in H.
    repeat (destruct H as [H | H]; [discriminate H |]). exact H.
  - intros H. cbn in H. exfalso.
    repeat (destruct H as [H | H]; [discriminate H |]). exact H.
  - reflexivity.
  - reflexivity.
Defined.

Lemma keyup_navigation_key_witness :
  let event := keystroke "ArrowDown" "SELECT e" 8 8 in
  handleKeyupSoql canonicalizeAscii noStyle event typedE
  = Returned (reportText event typedE).
Proof.
  cbv zeta.
  apply (@keyup_navigation_key canonicalizeAscii unit unit noStyle
           (keystroke "ArrowDown" "SELECT e" 8 8) typedE accountFields).
  - left. reflexivity.
  - reflexivity.
  - reflexivity.
  - reflexivity.
Defined.

Lemma opening_keyword_follows_last_separator_witness :
  noSeparator (firstn 12 (lit "SELECT Id,Na FROM Account")) = false
  /\ exists before c,
       firstn 12 (lit "SELECT Id,Na FROM Account")
       = before ++ c :: substring (lit "SELECT Id,Na FROM Account")
                          (boundaryFor (lit "SELECT Id,Na FROM Account") 12)
                          12
       /\ isSeparator c = true
       /\ boundaryFor (lit "SELECT Id,Na FROM Account") 12
          = length before + 1.
Proof.
  split; [reflexivity |].
  apply (proj1 (proj2 (opening_keyword_follows_last_separator
                         (lit "SELECT Id,Na FROM Account") 12))).
  reflexivity.
Defined.

Lemma keyup_on_closed_completion_witness :
  let event := keystroke "N" "N" 1 1 in
  let st := panelRun [loaded] in
  exists st',
    handleKeyupSoql canonicalizeAscii noStyle event st = Returned st'
    /\ _selectionStart st' = 1
    /\ exists found,
         completionFields st' = Some found
         /\ isCompletionVisible st' = (0 <? length found)%nat
         /\ map (@field unit) found = accountFields.
Proof.
  cbv zeta.
  pose proof (@keyup_on_closed_completion canonicalizeAscii unit unit noStyle
                (keystroke "N" "N" 1 1) (panelRun [loaded]) accountFields
                eq_refl eq_refl) as H.
  cbv zeta in H.
  destruct H as (st' & Hreturned & Hstart & _ & _ & Hopens).
  destruct (Hopens eq_refl) as (found & keep & Hfound & Hvisible & _ & _ & Hall).
  exists st'. split; [exact Hreturned |]. split; [exact Hstart |].
  exists found. split; [exact Hfound |]. split; [exact Hvisible |].
  apply Hall. reflexivity.
Defined.

Lemma keydown_composition_enter_without_fields_throws_witness :
  handleKeydownSoql canonicalizeAscii noNamespace noStyle
    (composedEnter "a" 1) (initial unit unit)
  = Thrown (set_selectionStart 1 (initial unit unit)).
Proof.
  apply (@keydown_composition_enter_without_fields_throws canonicalizeAscii
           noNamespace unit unit noStyle (composedEnter "a" 1)
           (initial unit unit));
    reflexivity.
Defined.

Lemma no_completion_before_fields_witness :
  let evs :=
    [Keyup unit (keystroke "N" "SELECT N" 8 8);
     Keydown unit (composedEnter "SELECT N" 8);
     Blur unit;
     CandidateChosen unit (lit "Name");
     StoreChanged (Some None) (lit "SELECT N")] in
  _sobjectMeta (panelRun evs) = None
  /\ isCompletionVisible (panelRun evs) = false
  /\ completionFields (panelRun evs) = None.
Proof.
  cbv zeta.
  apply (@no_completion_before_fields canonicalizeAscii noNamespace unit unit
           noStyle).
  reflexivity.
Defined.

Lemma reachable_list_has_one_active_witness :
  activeCount [candidate nameField false; candidate idField true] = 1.
Proof.
  apply (proj1 (@reachable_list_has_one_active canonicalizeAscii noNamespace
                  unit unit noStyle typedEDown
                  [candidate nameField false; candidate idField true]
                  (reachable_panelStep _ (reachable_panelRun _))
                  eq_refl)).
  discriminate.
Defined.

Lemma enter_inserts_the_active_candidate_witness :
  let event := keystroke "Enter" "SELECT N" 8 8 in
  exists fields c,
    completionFields typedN = Some fields
    /\ In c fields
    /\ find (@isActive unit) fields = Some c
    /\ handle canonicalizeAscii noNamespace noStyle (Keydown unit event) typedN
       = Returned
           (_insertField noNamespace (target event) (Some c)
              (set_inputEl (target event) typedN))
    /\ value (inputEl (panelStep typedN (Keydown unit event)))
       = firstn 7 (lit "SELECT N") ++ name (field c) ++ skipn 8 (lit "SELECT N")
    /\ isCompletionVisible (panelStep typedN (Keydown unit event)) = false.
Proof.
  cbv zeta.
  apply (@enter_inserts_the_active_candidate canonicalizeAscii noNamespace
           unit unit noStyle (keystroke "Enter" "SELECT N" 8 8) typedN).
  - apply reachable_panelRun.
  - reflexivity.
  - reflexivity.
  - reflexivity.
Defined.

Lemma click_inserts_the_chosen_candidate_witness :
  exists st',
    insertField noNamespace (lit "Id") typedE = Returned st'
    /\ value (inputEl st') = lit "SELECT Id"
    /\ isCompletionVisible st' = false
    /\ (forall id,
           _closeCompletionTimer typedE = Some id -> id <> 0 ->
           ~ In id (pendingTimers st')).
Proof.
  apply (@click_inserts_the_chosen_candidate noNamespace unit unit
           (candidate idField false) typedE
           [candidate nameField true; candidate idField false]).
  - reflexivity.
  - right. left. reflexivity.
Defined.

Lemma boundary_is_fixed_while_open_witness :
  _selectionStart
    (panelStep typedN (Keyup unit (keystroke "a" "SELECT Na" 9 9)))
  = 7.
Proof.
  apply (@boundary_is_fixed_while_open canonicalizeAscii noNamespace unit unit
           noStyle typedN (Keyup unit (keystroke "a" "SELECT Na" 9 9))).
  reflexivity.
Defined.

Lemma selection_moves_undo_each_other_witness :
  andThen (_selectBellowField typedE) (@_selectAboveField unit unit)
  = Returned typedE
  /\ andThen (_selectAboveField typedEDown) (@_selectBellowField unit unit)
     = Returned typedEDown.
Proof.
  split.
  - apply (proj1 (@selection_moves_undo_each_other unit unit typedE
                    [candidate nameField true; candidate idField false]
                    eq_refl eq_refl)).
    reflexivity.
  - apply (proj2 (@selection_moves_undo_each_other unit unit typedEDown
                    [candidate nameField false; candidate idField true]
                    eq_refl eq_refl)).
    reflexivity.
Defined.

Lemma click_cancels_the_deferred_close_witness :
  let st' :=
    run canonicalizeAscii noNamespace noStyle typedN
      [Blur unit; CandidateChosen unit (lit "Name")] in
  pendingTimers st' = pendingTimers typedN
  /\ panelStep st' (TimeoutFired unit (S (timersCreated typedN))) = st'.
Proof.
  apply (@click_cancels_the_deferred_close canonicalizeAscii noNamespace unit
           unit noStyle typedN (lit "Name")).
  apply reachable_panelRun.
Defined.
